(** * SpaRe: locating spatial indicators and binning them into text segments

    A shallow embedding of [SpaRe.py]: the text normaliser [clean_text], the
    indicator locator [find_SpaRe] and the segment histogram [freq_SpIn],
    together with the properties of the three functions.

    Conventions of the embedding.
    - A Python [str] is a list of Unicode code points ([N]).
    - A Python [int] is a [Z].
    - A Python [dict] with integer keys and values is an association list in
      insertion order: iterating a dict visits the keys in the order of their
      first insertion, and writing an existing key keeps its position.
    - [for] loops are [fold_left] over the iterated range, the loop-carried
      variables being the accumulator. *)

From Stdlib Require Import List ZArith Lia Bool Ascii Permutation.
From Stdlib Require String.
Import String.StringSyntax.
Import ListNotations.
Open Scope Z_scope.

(** ** Python strings *)

Definition char := N.
Definition str := list char.

(** [len(s)] *)
Definition len {A : Type} (s : list A) : Z := Z.of_nat (length s).

(** An ASCII literal as a Python string. *)
Definition py (s : String.string) : str :=
  map N_of_ascii (String.list_ascii_of_string s).

Arguments py s%_string_scope.

Definition SPACE : char := 32%N.
Definition NEWLINE : char := 10%N.
Definition HYPHEN : char := 45%N.

(** [s == t] on strings. *)
Fixpoint str_eqb (s t : str) : bool :=
  match s, t with
  | [], [] => true
  | a :: s', b :: t' => (a =? b)%N && str_eqb s' t'
  | _, _ => false
  end.

(** [text.startswith(sub)] *)
Fixpoint startswith (text sub : str) : bool :=
  match sub, text with
  | [], _ => true
  | _ :: _, [] => false
  | a :: sub', c :: text' => (a =? c)%N && startswith text' sub'
  end.

(** [text.find(sub)] scans the start offsets from the left; [i] is the offset
    of the current suffix in the whole text.  The empty string is found at
    offset 0 of every text, the empty text included. *)
Fixpoint find_from (text sub : str) (i : Z) : Z :=
  if startswith text sub then i
  else match text with
       | [] => -1
       | _ :: rest => find_from rest sub (i + 1)
       end.

Definition find (text sub : str) : Z := find_from text sub 0.

(** [range(n)] as indices, and [range(1, n + 1)]. *)
Definition range (n : Z) : list nat := seq 0 (Z.to_nat n).
Definition range1 (n : Z) : list Z := map Z.of_nat (seq 1 (Z.to_nat n)).

(** ** Python dictionaries with integer keys and values *)

Module PyDict.

Definition dict := list (Z * Z).

Definition empty : dict := [].

(** [d.update({k: v})] *)
Fixpoint update (k v : Z) (d : dict) : dict :=
  match d with
  | [] => [(k, v)]
  | (k', v') :: rest =>
      if k =? k' then (k, v) :: rest else (k', v') :: update k v rest
  end.

Fixpoint get (k : Z) (d : dict) : option Z :=
  match d with
  | [] => None
  | (k', v') :: rest => if k =? k' then Some v' else get k rest
  end.

(** [d[k]]; only ever evaluated at keys of [d]. *)
Definition getitem (d : dict) (k : Z) : Z :=
  match get k d with
  | Some v => v
  | None => 0
  end.

Definition keys (d : dict) : list Z := map fst d.
Definition values (d : dict) : list Z := map snd d.

End PyDict.

Import PyDict.

(** ** clean_text *)

(** The literal the source compares a character with in its [elif] branch: the
    three code points U+00E2, U+20AC, U+2122. *)
Definition apostrophe_literal : str := [226%N; 8364%N; 8482%N].

Section CleanText.

(** [letter.isalpha()], the Unicode table of the Python runtime. *)
Variable isalpha : char -> bool.

(** [file.read().replace('\n', ' ')] on the contents of the file. *)
Definition replace_newline (contents : str) : str :=
  map (fun c => if (c =? NEWLINE)%N then SPACE else c) contents.

(** Body of the first loop; the accumulator is [alnum_and_space]. *)
Definition keep_step (alnum_and_space : str) (letter : char) : str :=
  if isalpha letter || (letter =? SPACE)%N || (letter =? HYPHEN)%N
  then alnum_and_space ++ [letter]
  else if str_eqb [letter] apostrophe_literal
       then alnum_and_space ++ [SPACE]
       else alnum_and_space.

Definition alnum_and_space (contents : str) : str :=
  fold_left keep_step (replace_newline contents) [].

(** Body of the second loop over [range(len(alnum_and_space)-1)]; both
    [index] and [index+1] are within the string there. *)
Definition squeeze_step (s : str) (alnum_and_single_space : str)
    (index : nat) : str :=
  if (nth index s 0%N =? SPACE)%N
  then if negb (nth (index + 1) s 0%N =? SPACE)%N
       then alnum_and_single_space ++ [nth index s 0%N]
       else alnum_and_single_space
  else alnum_and_single_space ++ [nth index s 0%N].

(** [clean_text], as a function of the contents of the file it opens. *)
Definition clean_text (contents : str) : str :=
  let s := alnum_and_space contents in
  fold_left (squeeze_step s) (range (len s - 1)) [].

End CleanText.

(** The ASCII part of [str.isalpha], for running [clean_text]. *)
Definition ascii_isalpha (c : char) : bool :=
  ((65 <=? c) && (c <=? 90) || (97 <=? c) && (c <=? 122))%N.

(** ** find_SpaRe *)

(** Body of the first loop; the state is
    [(location_and_length, snippet_indices)]. *)
Definition locate_step (text : str) (snippets : list str)
    (st : dict * list Z) (x : nat) : dict * list Z :=
  let '(location_and_length, snippet_indices) := st in
  let index := find text (nth x snippets []) in
  let snippet_indices := snippet_indices ++ [index] in
  let snippet_length := len (nth x snippets []) in
  (update index snippet_length location_and_length, snippet_indices).

(** The first loop, stopped after [n] iterations. *)
Definition locate_prefix (text : str) (snippets : list str) (n : nat)
    : dict * list Z :=
  fold_left (locate_step text snippets) (seq 0 n) (empty, []).

(** The first loop: [for x in range(len(snippets)-1)]. *)
Definition locate_loop (text : str) (snippets : list str) : dict * list Z :=
  fold_left (locate_step text snippets) (range (len snippets - 1)) (empty, []).

Definition location_and_length (text : str) (snippets : list str) : dict :=
  fst (locate_loop text snippets).

Definition snippet_indices (text : str) (snippets : list str) : list Z :=
  snd (locate_loop text snippets).

(** Body of the second loop, over the keys of the dictionary. *)
Definition SpIn_step (d : dict) (SpIn_location : list Z) (x : Z) : list Z :=
  let index := x + getitem d x + 1 in
  SpIn_location ++ [index].

Definition find_SpaRe (text : str) (snippets : list str) : list Z :=
  let d := location_and_length text snippets in
  fold_left (SpIn_step d) (keys d) [].

(** ** freq_SpIn *)

(** [math.ceil(a / b)] for [b <> 0].  The source divides in floating point;
    the quotient of two integers is correctly rounded, so the ceiling is the
    exact one for every text shorter than 2^53 characters. *)
Definition ceil_div (a b : Z) : Z := - ((- a) / b).

(** [start] and [end] of a chunk, given the loop counter [x]. *)
Definition chunk_span (chunk_length chunk x : Z) : Z * Z :=
  let end_ := if chunk =? 1 then chunk_length * chunk
              else chunk_length * chunk + x in
  let start := end_ - chunk_length in
  (start, end_).

(** Body of the inner loop, at the location [SpIn_location[SpIn_index]]; the
    state is [(count, densities)]. *)
Definition count_step (start end_ chunk : Z) (st : Z * dict) (loc : Z)
    : Z * dict :=
  let '(count, densities) := st in
  if (start <=? loc) && (loc <=? end_)
  then (count + 1, update chunk (count + 1) densities)
  else (count, densities).

(** Body of the outer loop; the state is [(x, densities)]. *)
Definition chunk_step (SpIn_location : list Z) (chunk_length : Z)
    (st : Z * dict) (chunk : Z) : Z * dict :=
  let '(x, densities) := st in
  let '(start, end_) := chunk_span chunk_length chunk x in
  let x := x + 1 in
  let count := 0 in
  let densities := update chunk 0 densities in
  let '(_, densities) :=
    fold_left (count_step start end_ chunk) SpIn_location (count, densities) in
  (x, densities).

(** [freq_SpIn]; [None] is the [ZeroDivisionError] of [nr_of_chunks = 0]. *)
Definition freq_SpIn (SpIn_location : list Z) (text : str) (nr_of_chunks : Z)
    : option dict :=
  if nr_of_chunks =? 0 then None
  else
    let chunk_length := ceil_div (len text) nr_of_chunks in
    Some (snd (fold_left (chunk_step SpIn_location chunk_length)
                 (range1 nr_of_chunks) (0, empty))).

(** The [(chunk, (start, end))] triples the outer loop goes through, with the
    same threading of [x]. *)
Definition span_step (chunk_length : Z) (st : Z * list (Z * (Z * Z)))
    (chunk : Z) : Z * list (Z * (Z * Z)) :=
  let '(x, spans) := st in
  (x + 1, spans ++ [(chunk, chunk_span chunk_length chunk x)]).

Definition segment_spans (text : str) (nr_of_chunks : Z)
    : list (Z * (Z * Z)) :=
  snd (fold_left (span_step (ceil_div (len text) nr_of_chunks))
         (range1 nr_of_chunks) (0, [])).

Fixpoint span_of (spans : list (Z * (Z * Z))) (chunk : Z) : option (Z * Z) :=
  match spans with
  | [] => None
  | (k, se) :: rest => if chunk =? k then Some se else span_of rest chunk
  end.

Definition segment_start (text : str) (n chunk : Z) : option Z :=
  option_map fst (span_of (segment_spans text n) chunk).

Definition segment_end (text : str) (n chunk : Z) : option Z :=
  option_map snd (span_of (segment_spans text n) chunk).

(** ** Vocabulary of the statements *)

(** [sub] occurs in [text] at offset [i]. *)
Definition occurs_at (text sub : str) (i : nat) : Prop :=
  firstn (length sub) (skipn i text) = sub /\ (i <= length text)%nat.

Definition occurs (text sub : str) : Prop := exists i, occurs_at text sub i.

(** The snippets the first loop of [find_SpaRe] looks at. *)
Definition processed (snippets : list str) : list str :=
  firstn (length snippets - 1) snippets.

(** The first loop of [find_SpaRe] run over a list of snippets instead of over
    their indices. *)
Definition record_step (text : str) (st : dict * list Z) (snippet : str)
    : dict * list Z :=
  (update (find text snippet) (len snippet) (fst st),
   snd st ++ [find text snippet]).

Definition record (text : str) (snippets : list str) (d : dict) : dict :=
  fold_left (fun d snippet => update (find text snippet) (len snippet) d)
    snippets d.

(** The location the second loop of [find_SpaRe] derives from an entry. *)
Definition location_of (entry : Z * Z) : Z := fst entry + snd entry + 1.

(** Number of locations within [start..end], both ends included. *)
Definition count_in (start end_ : Z) (locs : list Z) : Z :=
  len (filter (fun loc => (start <=? loc) && (loc <=? end_)) locs).

(** The span of a chunk: at chunk [k] the loop counter [x] holds [k - 1]. *)
Definition span (chunk_length k : Z) : Z * Z :=
  chunk_span chunk_length k (k - 1).

(** The histogram over the chunks [ks], by counting. *)
Definition histogram (chunk_length : Z) (locs : list Z) (ks : list Z)
    : dict :=
  map (fun k => (k, count_in (fst (span chunk_length k))
                      (snd (span chunk_length k)) locs)) ks.

(** Entries of a dictionary with key [k]. *)
Definition entries_at (k : Z) (d : dict) : list (Z * Z) :=
  filter (fun kv => fst kv =? k) d.

Definition sum_values (d : dict) : Z := fold_right Z.add 0 (values d).

(** The test of the first branch of the filter loop of [clean_text]. *)
Definition kept (isalpha : char -> bool) (letter : char) : bool :=
  isalpha letter || (letter =? SPACE)%N || (letter =? HYPHEN)%N.



(** The second loop of [clean_text] by recursion on the string: a space
    followed by a space is skipped, and so is the last character. *)
Fixpoint squeeze (s : str) : str :=
  match s with
  | [] => []
  | c :: rest =>
      match rest with
      | [] => []
      | d :: _ =>
          if (c =? SPACE)%N && (d =? SPACE)%N then squeeze rest
          else c :: squeeze rest
      end
  end.

(** Collapsing runs of spaces, following the words of the specification and
    not the loop of the source: going through the string from the left, a
    space is written only when the character before it was not a space, so
    each run of spaces comes out as one space; [in_run] tells whether the
    character before was a space. *)
Fixpoint collapse_from (in_run : bool) (s : str) : str :=
  match s with
  | [] => []
  | c :: rest =>
      if (c =? SPACE)%N
      then if in_run then collapse_from true rest
           else SPACE :: collapse_from true rest
      else c :: collapse_from false rest
  end.

Definition collapse_spaces (s : str) : str := collapse_from false s.


(** [s] is [t] with some characters left out. *)
Inductive subseq {A : Type} : list A -> list A -> Prop :=
| subseq_nil : subseq [] []
| subseq_skip : forall x s t, subseq s t -> subseq s (x :: t)
| subseq_keep : forall x s t, subseq s t -> subseq (x :: s) (x :: t).

(** ** Scenario data *)

Definition cat_text : str := py "the cat sat on the mat".
Definition cat_snippet : str := py "the cat sat ".

(** Three snippets that all start at offset 0 of their text, and a last one. *)
Definition abab_text : str := py "abab".
Definition abab_snippets : list str :=
  [py "ab"; py "aba"; py "abab"; py "x"].

(** ** draw_plot and main *)

(** [draw_plot]: the two sequences [x_chunks] and [y_freq] handed to
    [plt.bar]; the rendering itself is the plotting library's. *)
Definition draw_plot (densities : dict) : list Z * list Z :=
  let x_chunks := keys densities in
  let y_freq := values densities in
  (x_chunks, y_freq).

(** [main], as a function of the contents of the text file and of the column
    [excel_into_list] reads from the spreadsheet, every cell of which is
    taken to hold a string; the result is what [draw_plot] is given to draw,
    [None] when [freq_SpIn] raises. *)
Definition main (isalpha : char -> bool) (contents : str)
    (SpaRe_list : list str) : option (list Z * list Z) :=
  let cleaned_text := clean_text isalpha contents in
  let SpIn_location := find_SpaRe cleaned_text SpaRe_list in
  let nr_of_chunks := 50 in
  match freq_SpIn SpIn_location cleaned_text nr_of_chunks with
  | Some densities => Some (draw_plot densities)
  | None => None
  end.

(** * Properties *)

(** ** Dictionaries *)

Section DictFacts.

Import PyDict.

Lemma get_update_same (k v : Z) (d : dict) : get k (update k v d) = Some v.
Proof.
  induction d as [|[k' v'] d IH]; simpl.
  - now rewrite Z.eqb_refl.
  - destruct (k =? k') eqn:E; simpl; rewrite ?Z.eqb_refl, ?E; auto.
Qed.

Lemma get_update_other (k k' v : Z) (d : dict) :
  k <> k' -> get k' (update k v d) = get k' d.
Proof.
  intros Hne. induction d as [|[k0 v0] d IH]; simpl.
  - destruct (k' =? k) eqn:E; auto. apply Z.eqb_eq in E. congruence.
  - destruct (k =? k0) eqn:E; simpl.
    + apply Z.eqb_eq in E. subst k0.
      destruct (k' =? k) eqn:E'; auto.
      apply Z.eqb_eq in E'. congruence.
    + now rewrite IH.
Qed.

Lemma update_fresh (k v : Z) (d : dict) :
  ~ In k (keys d) -> update k v d = d ++ [(k, v)].
Proof.
  induction d as [|[k' v'] d IH]; simpl; intros Hn; auto.
  destruct (k =? k') eqn:E.
  - apply Z.eqb_eq in E. subst. tauto.
  - f_equal. apply IH. tauto.
Qed.

Lemma update_last (k v c : Z) (d : dict) :
  ~ In k (keys d) -> update k v (d ++ [(k, c)]) = d ++ [(k, v)].
Proof.
  induction d as [|[k' v'] d IH]; simpl; intros Hn.
  - now rewrite Z.eqb_refl.
  - destruct (k =? k') eqn:E.
    + apply Z.eqb_eq in E. subst. tauto.
    + f_equal. apply IH. tauto.
Qed.

Lemma keys_update_in (k v : Z) (d : dict) :
  In k (keys d) -> keys (update k v d) = keys d.
Proof.
  induction d as [|[k' v'] d IH]; simpl; intros Hin; [tauto|].
  destruct (k =? k') eqn:E; simpl.
  - apply Z.eqb_eq in E. now subst.
  - f_equal. apply IH. destruct Hin as [->|]; auto.
    now rewrite Z.eqb_refl in E.
Qed.

Lemma keys_update (k v : Z) (d : dict) :
  keys (update k v d) = keys d \/ 
  (~ In k (keys d) /\ keys (update k v d) = keys d ++ [k]).
Proof.
  destruct (in_dec Z.eq_dec k (keys d)) as [Hin|Hn].
  - left. now apply keys_update_in.
  - right. split; auto. rewrite update_fresh by auto.
    unfold keys. now rewrite map_app.
Qed.

Lemma NoDup_keys_update (k v : Z) (d : dict) :
  NoDup (keys d) -> NoDup (keys (update k v d)).
Proof.
  intros Hd. destruct (keys_update k v d) as [->|[Hn ->]]; auto.
  apply NoDup_app; auto.
  - constructor; [simpl; tauto | constructor].
  - intros a Ha [<-|[]]. tauto.
Qed.

Lemma get_some_in (k v : Z) (d : dict) : get k d = Some v -> In (k, v) d.
Proof.
  induction d as [|[k' v'] d IH]; simpl; [discriminate|].
  destruct (k =? k') eqn:E.
  - apply Z.eqb_eq in E. intros [= ->]. now left; subst.
  - auto.
Qed.

Lemma in_get (k v : Z) (d : dict) :
  NoDup (keys d) -> In (k, v) d -> get k d = Some v.
Proof.
  induction d as [|[k' v'] d IH]; simpl; [tauto|].
  intros Hnd [Heq|Hin].
  - injection Heq as -> ->. now rewrite Z.eqb_refl.
  - inversion Hnd as [|? ? Hn Hd]; subst.
    destruct (k =? k') eqn:E; auto.
    apply Z.eqb_eq in E. subst k'. exfalso. apply Hn.
    change k with (fst (k, v)). now apply in_map.
Qed.

Lemma get_none_keys (k : Z) (d : dict) : get k d = None <-> ~ In k (keys d).
Proof.
  induction d as [|[k' v'] d IH]; simpl; [tauto|].
  destruct (k =? k') eqn:E.
  - apply Z.eqb_eq in E. subst. split; [discriminate | tauto].
  - apply Z.eqb_neq in E. rewrite IH. split; [intros H [?|?]; auto | tauto].
Qed.

Lemma entries_at_unique (k : Z) (d : dict) :
  NoDup (keys d) ->
  entries_at k d = match get k d with Some v => [(k, v)] | None => [] end.
Proof.
  induction d as [|[k' v'] d IH]; simpl; auto.
  intros Hnd. inversion Hnd as [|? ? Hn Hd]; subst.
  rewrite (Z.eqb_sym k' k). destruct (k =? k') eqn:E.
  - apply Z.eqb_eq in E. subst k'. rewrite IH by auto.
    apply get_none_keys in Hn. now rewrite Hn.
  - now apply IH.
Qed.

End DictFacts.

(** ** Substring search *)

Section FindFacts.

Lemma startswith_firstn (text sub : str) :
  startswith text sub = true <-> firstn (length sub) text = sub.
Proof.
  revert text. induction sub as [|a sub IH]; intros text.
  - destruct text; simpl; tauto.
  - destruct text as [|c text]; simpl.
    + split; discriminate.
    + rewrite andb_true_iff, IH, N.eqb_eq. split.
      * intros [-> ->]. reflexivity.
      * intros [= -> H]. rewrite H. auto.
Qed.

Lemma occurs_at_0 (text sub : str) :
  occurs_at text sub 0 <-> startswith text sub = true.
Proof.
  unfold occurs_at. simpl. rewrite startswith_firstn. split; [tauto|].
  intros H. split; [assumption | lia].
Qed.

Lemma occurs_at_S (c : char) (text sub : str) (j : nat) :
  occurs_at (c :: text) sub (S j) <-> occurs_at text sub j.
Proof. unfold occurs_at. simpl. split; intros [H1 H2]; split; auto; lia. Qed.

Lemma occurs_at_nil (sub : str) (j : nat) :
  occurs_at [] sub j -> j = 0%nat.
Proof. unfold occurs_at. simpl. lia. Qed.

(** A snippet found at [j] lies within the text. *)
Lemma occurs_at_bound (text sub : str) (j : nat) :
  occurs_at text sub j -> (j + length sub <= length text)%nat.
Proof.
  intros [H Hj]. apply (f_equal (@length _)) in H.
  rewrite length_firstn, length_skipn in H. lia.
Qed.

Lemma find_from_eq (text sub : str) (i : Z) :
  find_from text sub i =
  if startswith text sub then i
  else match text with
       | [] => -1
       | _ :: rest => find_from rest sub (i + 1)
       end.
Proof. destruct text; reflexivity. Qed.

(** [find_from] returns the offset of the leftmost occurrence, or -1 when
    there is none. *)
Lemma find_from_spec (text sub : str) (i : Z) :
  (exists j, find_from text sub i = i + Z.of_nat j
             /\ occurs_at text sub j
             /\ forall j', (j' < j)%nat -> ~ occurs_at text sub j')
  \/ (find_from text sub i = -1 /\ forall j, ~ occurs_at text sub j).
Proof.
  revert i. induction text as [|c text IH]; intros i; rewrite find_from_eq.
  - destruct (startswith [] sub) eqn:E.
    + left. exists 0%nat. split; [lia | split].
      * now apply occurs_at_0.
      * lia.
    + right. split; auto. intros j Hj.
      pose proof (occurs_at_nil _ _ Hj); subst j.
      apply occurs_at_0 in Hj. congruence.
  - destruct (startswith (c :: text) sub) eqn:E.
    + left. exists 0%nat. split; [lia | split].
      * now apply occurs_at_0.
      * lia.
    + destruct (IH (i + 1)) as [(j & Hf & Ho & Hm) | (Hf & Hn)].
      * left. exists (S j). split; [rewrite Hf; lia | split].
        -- now apply occurs_at_S.
        -- intros [|j'] Hlt Hocc.
           ++ apply occurs_at_0 in Hocc. congruence.
           ++ apply occurs_at_S in Hocc. apply (Hm j'); auto. lia.
      * right. split; auto. intros [|j] Hocc.
        -- apply occurs_at_0 in Hocc. congruence.
        -- apply occurs_at_S in Hocc. now apply (Hn j).
Qed.

Lemma find_spec (text sub : str) :
  (exists j, find text sub = Z.of_nat j
             /\ occurs_at text sub j
             /\ forall j', (j' < j)%nat -> ~ occurs_at text sub j')
  \/ (find text sub = -1 /\ ~ occurs text sub).
Proof.
  unfold find. destruct (find_from_spec text sub 0)
    as [(j & Hf & Ho & Hm) | (Hf & Hn)].
  - left. exists j. rewrite Hf. auto.
  - right. split; auto. intros [j Hj]. now apply (Hn j).
Qed.

Lemma find_absent (text sub : str) :
  find text sub = -1 <-> ~ occurs text sub.
Proof.
  destruct (find_spec text sub) as [(j & Hf & Ho & _) | (Hf & Hn)].
  - split; [lia|]. intros Hn. exfalso. apply Hn. now exists j.
  - tauto.
Qed.

Lemma find_present (text sub : str) :
  occurs text sub ->
  exists j, find text sub = Z.of_nat j
            /\ occurs_at text sub j
            /\ forall j', (j' < j)%nat -> ~ occurs_at text sub j'.
Proof.
  intros Ho. destruct (find_spec text sub) as [H | (_ & Hn)]; tauto.
Qed.

(** The location derived from a snippet that occurs never passes the
    offset one past the end of the text. *)
Lemma find_location_bound (text sub : str) :
  occurs text sub ->
  0 <= find text sub /\ find text sub + len sub + 1 <= len text + 1.
Proof.
  intros Ho. destruct (find_present _ _ Ho) as (j & Hf & Hocc & _).
  apply occurs_at_bound in Hocc. unfold len. lia.
Qed.

End FindFacts.

(** ** The locator's two loops *)

Section LocatorFacts.

Variable text : str.

Lemma map_nth_seq (A : Type) (d : A) (l : list A) (n : nat) :
  (n <= length l)%nat -> map (fun x => nth x l d) (seq 0 n) = firstn n l.
Proof.
  revert n. induction l as [|a l IH]; intros n Hn; simpl in Hn.
  - assert (n = 0%nat) as -> by lia. reflexivity.
  - destruct n as [|n]; [reflexivity|].
    simpl. f_equal. rewrite <- seq_shift, map_map. apply IH. lia.
Qed.

Lemma fold_left_nth_seq (A S : Type) (g : S -> A -> S) (d : A)
    (l : list A) (n : nat) (init : S) :
  (n <= length l)%nat ->
  fold_left (fun st x => g st (nth x l d)) (seq 0 n) init
  = fold_left g (firstn n l) init.
Proof.
  intros Hn. rewrite <- (map_nth_seq A d l n Hn).
  generalize (seq 0 n) as xs. intros xs. revert init.
  induction xs as [|x xs IH]; intros init; simpl; auto.
Qed.

Lemma locate_step_record (snippets : list str) (st : dict * list Z)
    (x : nat) :
  locate_step text snippets st x = record_step text st (nth x snippets []).
Proof. destruct st. reflexivity. Qed.

Lemma fold_record_step (l : list str) (d : dict) (tr : list Z) :
  fold_left (record_step text) l (d, tr)
  = (record text l d, tr ++ map (find text) l).
Proof.
  revert d tr. induction l as [|s l IH]; intros d tr; simpl.
  - now rewrite app_nil_r.
  - unfold record_step at 2. simpl. rewrite IH, <- app_assoc. reflexivity.
Qed.

Lemma locate_prefix_record (snippets : list str) (n : nat) :
  (n <= length snippets)%nat ->
  locate_prefix text snippets n
  = (record text (firstn n snippets) empty,
     map (find text) (firstn n snippets)).
Proof.
  intros Hn. unfold locate_prefix.
  transitivity (fold_left (record_step text) (firstn n snippets)
                  (empty, @nil Z));
    [| now rewrite fold_record_step].
  rewrite <- (fold_left_nth_seq str _ (record_step text) [] snippets n _ Hn).
  generalize (seq 0 n) as xs. generalize (empty, @nil Z) as st.
  intros st xs. revert st.
  induction xs as [|x xs IH]; intros st; simpl; auto.
  rewrite locate_step_record. apply IH.
Qed.

Lemma range_pred_len (A : Type) (l : list A) :
  range (len l - 1) = seq 0 (length l - 1).
Proof. unfold range, len. f_equal. lia. Qed.

Lemma locate_loop_prefix (snippets : list str) :
  locate_loop text snippets
  = locate_prefix text snippets (length snippets - 1).
Proof. unfold locate_loop, locate_prefix. now rewrite range_pred_len. Qed.

Lemma location_and_length_record (snippets : list str) :
  location_and_length text snippets
  = record text (processed snippets) empty.
Proof.
  unfold location_and_length. rewrite locate_loop_prefix.
  rewrite locate_prefix_record by lia. reflexivity.
Qed.

Lemma snippet_indices_processed (snippets : list str) :
  snippet_indices text snippets = map (find text) (processed snippets).
Proof.
  unfold snippet_indices. rewrite locate_loop_prefix.
  rewrite locate_prefix_record by lia. reflexivity.
Qed.

Lemma record_app (l1 l2 : list str) (d : dict) :
  record text (l1 ++ l2) d = record text l2 (record text l1 d).
Proof. unfold record. apply fold_left_app. Qed.

Lemma record_NoDup (l : list str) (d : dict) :
  NoDup (keys d) -> NoDup (keys (record text l d)).
Proof.
  revert d. induction l as [|s l IH]; intros d Hd; simpl; auto.
  apply IH. now apply NoDup_keys_update.
Qed.

(** Snippets at other offsets leave the entry of [o] alone. *)
Lemma record_get_other (l : list str) (d : dict) (o : Z) :
  (forall t, In t l -> find text t <> o) ->
  get o (record text l d) = get o d.
Proof.
  revert d. induction l as [|s l IH]; intros d Hl; simpl; auto.
  rewrite IH by (intros t Ht; apply Hl; now right).
  apply get_update_other. apply Hl. now left.
Qed.

(** Last write wins. *)
Lemma record_get_last (l1 l2 : list str) (s : str) (d : dict) :
  (forall t, In t l2 -> find text t <> find text s) ->
  get (find text s) (record text (l1 ++ s :: l2) d) = Some (len s).
Proof.
  intros Hl2. rewrite record_app. simpl.
  rewrite record_get_other by assumption. apply get_update_same.
Qed.

Lemma record_entries (l : list str) (d : dict) (k v : Z) :
  In (k, v) (record text l d) ->
  In (k, v) d \/ exists s, In s l /\ k = find text s /\ v = len s.
Proof.
  revert d. induction l as [|s l IH]; intros d; simpl; auto.
  intros Hin. apply IH in Hin. destruct Hin as [Hin | (t & Ht & Hk & Hv)].
  - clear IH. induction d as [|[k' v'] d IHd]; simpl in Hin.
    + destruct Hin as [[= <- <-]|[]]. right. exists s. auto.
    + destruct (find text s =? k') eqn:E.
      * destruct Hin as [[= <- <-]|Hin].
        -- right. exists s. auto.
        -- left. now right.
      * destruct Hin as [Heq|Hin].
        -- left. now left.
        -- destruct (IHd Hin) as [H|H]; [left; now right | now right].
  - right. exists t. auto.
Qed.

Lemma record_keys_mono (l : list str) (d : dict) (k : Z) :
  In k (keys d) -> In k (keys (record text l d)).
Proof.
  revert d. induction l as [|s l IH]; intros d Hk; simpl; auto.
  apply IH. destruct (keys_update (find text s) (len s) d) as [->|[_ ->]].
  - assumption.
  - apply in_or_app. now left.
Qed.

(** Every snippet gone through has its offset among the keys. *)
Lemma record_keys_in (l : list str) (d : dict) (s : str) :
  In s l -> In (find text s) (keys (record text l d)).
Proof.
  revert d. induction l as [|t l IH]; intros d; simpl; [tauto|].
  intros [->|Hin]; [|now apply IH].
  apply record_keys_mono.
  destruct (get (find text s) (update (find text s) (len s) d)) eqn:E.
  - apply get_some_in in E. change (find text s) with (fst (find text s, z)).
    now apply in_map.
  - now rewrite get_update_same in E.
Qed.

Lemma fold_SpIn_step (d : dict) (ks acc : list Z) :
  fold_left (SpIn_step d) ks acc
  = acc ++ map (fun x => x + getitem d x + 1) ks.
Proof.
  revert acc. induction ks as [|k ks IH]; intros acc; simpl.
  - now rewrite app_nil_r.
  - rewrite IH. unfold SpIn_step. now rewrite <- app_assoc.
Qed.

(** The second loop emits one location for each entry of the mapping. *)
Lemma find_SpaRe_entries (snippets : list str) :
  find_SpaRe text snippets
  = map location_of (location_and_length text snippets).
Proof.
  unfold find_SpaRe. rewrite fold_SpIn_step. simpl.
  assert (Hnd : NoDup (keys (location_and_length text snippets))).
  { rewrite location_and_length_record. apply record_NoDup. constructor. }
  unfold keys. rewrite map_map. apply map_ext_in.
  intros [k v] Hin. unfold location_of, getitem. simpl.
  now rewrite (in_get k v _ Hnd Hin).
Qed.

End LocatorFacts.

(** ** The histogram's two loops *)

Section HistogramFacts.

Lemma count_in_cons (s e l : Z) (locs : list Z) :
  count_in s e (l :: locs)
  = (if (s <=? l) && (l <=? e) then 1 else 0) + count_in s e locs.
Proof.
  unfold count_in, len. simpl.
  destruct ((s <=? l) && (l <=? e)); simpl length; lia.
Qed.

Lemma count_in_nonneg (s e : Z) (locs : list Z) : 0 <= count_in s e locs.
Proof. unfold count_in, len. lia. Qed.

Lemma count_in_none (s e : Z) (locs : list Z) :
  (forall l, In l locs -> ~ (s <= l <= e)) -> count_in s e locs = 0.
Proof.
  induction locs as [|l locs IH]; intros H; [reflexivity|].
  rewrite count_in_cons, IH by (intros; apply H; now right).
  destruct ((s <=? l) && (l <=? e)) eqn:E; auto.
  exfalso. apply (H l); [now left | lia].
Qed.

(** The inner loop leaves the running count in the chunk's entry. *)
Lemma fold_count_step (s e chunk : Z) (locs : list Z) (c : Z) (d : dict) :
  ~ In chunk (keys d) ->
  fold_left (count_step s e chunk) locs (c, d ++ [(chunk, c)])
  = (c + count_in s e locs, d ++ [(chunk, c + count_in s e locs)]).
Proof.
  intros Hfresh. revert c. induction locs as [|l locs IH]; intros c.
  - simpl. unfold count_in, len. simpl. now rewrite Z.add_0_r.
  - simpl fold_left. rewrite count_in_cons.
    destruct ((s <=? l) && (l <=? e)).
    + rewrite update_last by assumption. rewrite IH.
      now rewrite Z.add_assoc.
    + rewrite IH. reflexivity.
Qed.

Lemma chunk_step_histogram (locs : list Z) (L chunk : Z) (d : dict) :
  ~ In chunk (keys d) ->
  chunk_step locs L (chunk - 1, d) chunk
  = (chunk, d ++ histogram L locs [chunk]).
Proof.
  intros Hfresh. unfold chunk_step, histogram, span. cbn [map].
  destruct (chunk_span L chunk (chunk - 1)) as [start end_].
  rewrite update_fresh by assumption.
  rewrite fold_count_step by assumption. cbn [fst snd].
  rewrite Z.add_0_l. f_equal. lia.
Qed.

Lemma fold_chunk_step (locs : list Z) (L : Z) (n a : nat) (d : dict) :
  (forall k, In k (keys d) -> k <= Z.of_nat a) ->
  fold_left (chunk_step locs L) (map Z.of_nat (seq (S a) n)) (Z.of_nat a, d)
  = (Z.of_nat (a + n), d ++ histogram L locs (map Z.of_nat (seq (S a) n))).
Proof.
  revert a d. induction n as [|n IH]; intros a d Hd.
  - simpl. now rewrite Nat.add_0_r, app_nil_r.
  - cbn [seq map fold_left].
    replace (Z.of_nat a) with (Z.of_nat (S a) - 1) at 1 by lia.
    rewrite chunk_step_histogram
      by (intros Hin; apply Hd in Hin; lia).
    rewrite IH.
    + rewrite <- app_assoc. f_equal. f_equal. lia.
    + intros k Hin. unfold keys in Hin. rewrite map_app in Hin.
      apply in_app_or in Hin. destruct Hin as [Hin|[<-|[]]].
      * apply Hd in Hin. lia.
      * simpl. lia.
Qed.

(** [freq_SpIn] returns the histogram over the chunks 1..N. *)
Lemma freq_SpIn_histogram (locs : list Z) (text : str) (N : Z) :
  N <> 0 ->
  freq_SpIn locs text N
  = Some (histogram (ceil_div (len text) N) locs (range1 N)).
Proof.
  intros HN. unfold freq_SpIn. apply Z.eqb_neq in HN. rewrite HN.
  unfold range1. rewrite (fold_chunk_step _ _ _ 0%nat empty).
  - reflexivity.
  - intros k [].
Qed.

Lemma fold_span_step (L : Z) (n a : nat) (spans : list (Z * (Z * Z))) :
  fold_left (span_step L) (map Z.of_nat (seq (S a) n)) (Z.of_nat a, spans)
  = (Z.of_nat (a + n),
     spans ++ map (fun k => (k, span L k)) (map Z.of_nat (seq (S a) n))).
Proof.
  revert a spans. induction n as [|n IH]; intros a spans.
  - simpl. now rewrite Nat.add_0_r, app_nil_r.
  - cbn [seq map fold_left]. unfold span_step at 2.
    replace (Z.of_nat a + 1) with (Z.of_nat (S a)) by lia.
    replace (chunk_span L (Z.of_nat (S a)) (Z.of_nat a))
      with (span L (Z.of_nat (S a)))
      by (unfold span; f_equal; lia).
    rewrite IH. rewrite <- app_assoc. f_equal. f_equal. lia.
Qed.

Lemma segment_spans_span (text : str) (N : Z) :
  segment_spans text N
  = map (fun k => (k, span (ceil_div (len text) N) k)) (range1 N).
Proof.
  unfold segment_spans, range1.
  now rewrite (fold_span_step _ _ 0%nat []).
Qed.

(** The spans in closed form. *)
Lemma span_closed (L k : Z) :
  span L k = (L * (k - 1) + (k - 1), L * k + (k - 1)).
Proof.
  unfold span, chunk_span. destruct (k =? 1) eqn:E.
  - apply Z.eqb_eq in E. subst k. f_equal; lia.
  - f_equal; lia.
Qed.

Lemma in_range1 (N k : Z) : In k (range1 N) <-> 1 <= k <= N.
Proof.
  unfold range1. rewrite in_map_iff. split.
  - intros (x & <- & Hx). apply in_seq in Hx. lia.
  - intros Hk. exists (Z.to_nat k). split; [lia|]. apply in_seq. lia.
Qed.

Lemma span_of_map (L : Z) (ks : list Z) (k : Z) :
  In k ks -> span_of (map (fun k => (k, span L k)) ks) k = Some (span L k).
Proof.
  induction ks as [|k' ks IH]; simpl; [tauto|].
  intros Hin. destruct (k =? k') eqn:E.
  - apply Z.eqb_eq in E. now subst.
  - apply IH. destruct Hin as [->|Hin]; auto.
    now rewrite Z.eqb_refl in E.
Qed.

Lemma ceil_div_covers (a b : Z) : 0 < b -> a <= ceil_div a b * b.
Proof.
  intros Hb. unfold ceil_div.
  pose proof (Z.mul_div_le (- a) b Hb). lia.
Qed.

Lemma ceil_div_nonneg (a b : Z) : 0 <= a -> 0 < b -> 0 <= ceil_div a b.
Proof.
  intros Ha Hb. unfold ceil_div.
  assert ((- a) / b <= 0); [|lia].
  apply Z.div_le_upper_bound; lia.
Qed.

End HistogramFacts.

(** ** Counting over adjacent spans *)

Section SpanFacts.

Lemma count_in_split (a b c : Z) (locs : list Z) :
  a <= b + 1 -> b <= c ->
  count_in a b locs + count_in (b + 1) c locs = count_in a c locs.
Proof.
  intros Hab Hbc. induction locs as [|l locs IH]; [reflexivity|].
  rewrite !count_in_cons, <- IH.
  destruct (Z.leb_spec a l), (Z.leb_spec l b), (Z.leb_spec (b + 1) l),
           (Z.leb_spec l c); cbn [andb]; lia.
Qed.

Lemma count_in_all (a b : Z) (locs : list Z) :
  (forall l, In l locs -> a <= l <= b) -> count_in a b locs = len locs.
Proof.
  induction locs as [|l locs IH]; intros H; [reflexivity|].
  rewrite count_in_cons, IH by (intros; apply H; now right).
  assert (a <= l <= b) by (apply H; now left).
  replace ((a <=? l) && (l <=? b)) with true
    by (symmetry; apply andb_true_iff; lia).
  unfold len. simpl length. lia.
Qed.

Lemma sum_values_app (d1 d2 : dict) :
  sum_values (d1 ++ d2) = sum_values d1 + sum_values d2.
Proof.
  unfold sum_values, values. rewrite map_app.
  induction (map snd d1) as [|v vs IH]; simpl; lia.
Qed.

Lemma histogram_app (L : Z) (locs : list Z) (ks1 ks2 : list Z) :
  histogram L locs (ks1 ++ ks2)
  = histogram L locs ks1 ++ histogram L locs ks2.
Proof. apply map_app. Qed.

(** The spans of the chunks 1..n tile the offsets 0 .. L*n + n - 1. *)
Lemma sum_histogram (L : Z) (locs : list Z) (n : nat) :
  0 <= L ->
  sum_values (histogram L locs (map Z.of_nat (seq 1 n)))
  = count_in 0 (L * Z.of_nat n + Z.of_nat n - 1) locs.
Proof.
  intros HL. induction n as [|n IH].
  - simpl. symmetry. apply count_in_none. intros; lia.
  - rewrite seq_S, map_app, histogram_app, sum_values_app, IH.
    cbn [map histogram]. rewrite span_closed. cbn [fst snd].
    unfold sum_values at 1. cbn [values map fold_right].
    rewrite Z.add_0_r.
    replace (L * (Z.of_nat (1 + n) - 1) + (Z.of_nat (1 + n) - 1))
      with (L * Z.of_nat n + Z.of_nat n - 1 + 1) by lia.
    replace (L * Z.of_nat (1 + n) + (Z.of_nat (1 + n) - 1))
      with (L * Z.of_nat (S n) + Z.of_nat (S n) - 1) by lia.
    apply count_in_split; nia.
Qed.

Lemma get_histogram (L : Z) (locs : list Z) (ks : list Z) (k : Z) :
  In k ks ->
  get k (histogram L locs ks)
  = Some (count_in (fst (span L k)) (snd (span L k)) locs).
Proof.
  induction ks as [|k' ks IH]; simpl; [tauto|].
  intros Hin. destruct (k =? k') eqn:E.
  - apply Z.eqb_eq in E. now subst.
  - apply IH. destruct Hin as [->|Hin]; auto.
    now rewrite Z.eqb_refl in E.
Qed.

Lemma keys_histogram (L : Z) (locs : list Z) (ks : list Z) :
  keys (histogram L locs ks) = ks.
Proof.
  unfold keys, histogram. rewrite map_map. simpl. apply map_id.
Qed.

(** An offset lies in the span of at most one chunk. *)
Lemma span_disjoint (L k1 k2 loc : Z) :
  0 <= L ->
  fst (span L k1) <= loc <= snd (span L k1) ->
  fst (span L k2) <= loc <= snd (span L k2) ->
  k1 = k2.
Proof.
  intros HL. rewrite !span_closed. cbn [fst snd]. intros H1 H2.
  destruct (Z.lt_trichotomy k1 k2) as [Hlt|[Heq|Hgt]]; auto; nia.
Qed.

End SpanFacts.

(** * The scenario of the specification *)

(** The scenario does not come out as C1 words it: on the one-snippet list
    the locator returns no offset at all, so neither the offset 12 nor one of
    the two histograms with a count of 1 is produced. *)
Lemma cat_scenario_not_as_claimed :
  ~ (find_SpaRe cat_text [cat_snippet] = [12]
     /\ (freq_SpIn (find_SpaRe cat_text [cat_snippet]) cat_text 2
           = Some [(1, 0); (2, 1)]
         \/ freq_SpIn (find_SpaRe cat_text [cat_snippet]) cat_text 2
           = Some [(1, 1); (2, 0)])).
Proof. intros [H _]. vm_compute in H. discriminate H. Qed.

(** C1, amended: for the text "the cat sat on the mat", the snippet list
    ["the cat sat "] and N = 2, [find_SpaRe] returns no indicator offset (the
    only snippet is the last one, which is not searched for) and [freq_SpIn]
    returns {1: 0, 2: 0}; when any further snippet follows, the single
    indicator offset is 13 (offset 0, plus length 12, plus 1) and the
    histogram is {1: 0, 2: 1}. *)
Theorem cat_scenario :
  find_SpaRe cat_text [cat_snippet] = []
  /\ freq_SpIn (find_SpaRe cat_text [cat_snippet]) cat_text 2
     = Some [(1, 0); (2, 0)]
  /\ forall last : str,
       find_SpaRe cat_text [cat_snippet; last] = [13]
       /\ freq_SpIn (find_SpaRe cat_text [cat_snippet; last]) cat_text 2
          = Some [(1, 0); (2, 1)].
Proof.
  split; [reflexivity|]. split; [reflexivity|].
  intros last.
  assert (H : find_SpaRe cat_text [cat_snippet; last] = [13])
    by reflexivity.
  rewrite H. split; reflexivity.
Qed.

(** * Segments *)

(** On the 22-character text with N = 2 the first segment ends at 11 and the
    second starts at 12, and a location at 11 is counted in segment 1 only:
    the boundary is not shared, against C2. *)
Lemma cat_boundary_not_shared :
  segment_end cat_text 2 1 = Some 11
  /\ segment_start cat_text 2 2 = Some 12
  /\ segment_end cat_text 2 1 <> segment_start cat_text 2 2
  /\ freq_SpIn [11] cat_text 2 = Some [(1, 1); (2, 0)].
Proof.
  repeat split; try reflexivity. vm_compute. discriminate.
Qed.

(** C2, amended: in [freq_SpIn] the segment boundaries are inclusive on both
    ends and adjacent segments do not overlap: for every 1 <= k < N, segment
    k+1 starts one position after the end of segment k; each segment counts
    the locations within its start and end, both included, so a location
    exactly on the end of segment k is counted in segment k and not in
    segment k+1. *)
Theorem segments_do_not_overlap (text : str) (N k : Z) :
  1 <= k < N ->
  exists s e s' e',
    span_of (segment_spans text N) k = Some (s, e)
    /\ span_of (segment_spans text N) (k + 1) = Some (s', e')
    /\ s' = e + 1
    /\ (forall locs, exists d,
          freq_SpIn locs text N = Some d
          /\ get k d = Some (count_in s e locs)
          /\ get (k + 1) d = Some (count_in s' e' locs))
    /\ (exists d,
          freq_SpIn [e] text N = Some d
          /\ get k d = Some 1 /\ get (k + 1) d = Some 0).
Proof.
  intros Hk. set (L := ceil_div (len text) N).
  assert (HL : 0 <= L) by (apply ceil_div_nonneg; unfold len; lia).
  assert (Hin : In k (range1 N)) by (apply in_range1; lia).
  assert (Hin' : In (k + 1) (range1 N)) by (apply in_range1; lia).
  exists (fst (span L k)), (snd (span L k)),
         (fst (span L (k + 1))), (snd (span L (k + 1))).
  rewrite segment_spans_span. fold L.
  rewrite !span_of_map by assumption. rewrite <- !surjective_pairing.
  split; [reflexivity|]. split; [reflexivity|]. split.
  { rewrite !span_closed. cbn [fst snd]. lia. }
  split.
  - intros locs. eexists. split.
    + apply freq_SpIn_histogram. lia.
    + fold L. now rewrite !get_histogram by assumption.
  - eexists. split.
    + apply freq_SpIn_histogram. lia.
    + fold L. rewrite !get_histogram by assumption.
      rewrite !span_closed. cbn [fst snd].
      rewrite !count_in_cons. unfold count_in, len. cbn [filter length].
      split; f_equal.
      * replace ((L * (k - 1) + (k - 1) <=? L * k + (k - 1))
                 && (L * k + (k - 1) <=? L * k + (k - 1))) with true;
          [reflexivity|].
        symmetry. apply andb_true_iff. lia.
      * replace ((L * (k + 1 - 1) + (k + 1 - 1) <=? L * k + (k - 1))
                 && (L * k + (k - 1) <=? L * (k + 1) + (k + 1 - 1)))
          with false; [reflexivity|].
        symmetry. apply andb_false_iff. left. apply Z.leb_gt. lia.
Qed.

Lemma segments_do_not_overlap_witness :
  exists s e s' e',
    span_of (segment_spans cat_text 2) 1 = Some (s, e)
    /\ span_of (segment_spans cat_text 2) (1 + 1) = Some (s', e')
    /\ s' = e + 1
    /\ (forall locs, exists d,
          freq_SpIn locs cat_text 2 = Some d
          /\ get 1 d = Some (count_in s e locs)
          /\ get (1 + 1) d = Some (count_in s' e' locs))
    /\ (exists d,
          freq_SpIn [e] cat_text 2 = Some d
          /\ get 1 d = Some 1 /\ get (1 + 1) d = Some 0).
Proof. apply (segments_do_not_overlap cat_text 2 1). lia. Defined.

(** * The histogram *)

(** C3: for every text, every list of indicator locations and every positive
    N (whether or not N divides the length of the text), the dictionary
    returned by [freq_SpIn] has exactly the keys 1..N in numeric order, each
    mapped to a non-negative count, namely the number of locations within the
    chunk's span; a chunk whose span holds no location is present and mapped
    to zero. *)
Theorem freq_SpIn_keys (locs : list Z) (text : str) (N : Z) :
  0 < N ->
  exists d,
    freq_SpIn locs text N = Some d
    /\ keys d = range1 N
    /\ length d = Z.to_nat N
    /\ (forall i, (i < Z.to_nat N)%nat -> nth i (keys d) 0 = Z.of_nat i + 1)
    /\ Forall (fun v => 0 <= v) (values d)
    /\ (forall k, 1 <= k <= N ->
          exists s e,
            span_of (segment_spans text N) k = Some (s, e)
            /\ get k d = Some (count_in s e locs)
            /\ ((forall l, In l locs -> ~ (s <= l <= e)) ->
                get k d = Some 0)).
Proof.
  intros HN. eexists. split; [apply freq_SpIn_histogram; lia|].
  set (L := ceil_div (len text) N).
  split; [apply keys_histogram|].
  split; [unfold histogram, range1; now rewrite !length_map, length_seq|].
  split.
  { intros i Hi. rewrite keys_histogram. unfold range1.
    change 0 with (Z.of_nat 0). rewrite map_nth, seq_nth by assumption. lia. }
  split.
  { apply Forall_forall. intros v Hv. unfold values, histogram in Hv.
    rewrite map_map in Hv. apply in_map_iff in Hv.
    destruct Hv as (k & <- & _). apply count_in_nonneg. }
  intros k Hk. assert (Hin : In k (range1 N)) by now apply in_range1.
  exists (fst (span L k)), (snd (span L k)).
  rewrite segment_spans_span. fold L.
  rewrite span_of_map, get_histogram by assumption.
  rewrite <- surjective_pairing. split; [reflexivity|].
  split; [reflexivity|].
  intros Hnone. now rewrite count_in_none.
Qed.

Lemma freq_SpIn_keys_witness :
  exists d,
    freq_SpIn [13] cat_text 2 = Some d
    /\ keys d = range1 2
    /\ length d = Z.to_nat 2
    /\ (forall i, (i < Z.to_nat 2)%nat -> nth i (keys d) 0 = Z.of_nat i + 1)
    /\ Forall (fun v => 0 <= v) (values d)
    /\ (forall k, 1 <= k <= 2 ->
          exists s e,
            span_of (segment_spans cat_text 2) k = Some (s, e)
            /\ get k d = Some (count_in s e [13])
            /\ ((forall l, In l [13] -> ~ (s <= l <= e)) ->
                get k d = Some 0)).
Proof. apply (freq_SpIn_keys [13] cat_text 2). lia. Defined.

(** With N = 1 a snippet that ends the text yields a location one past the
    segment's end: it is counted nowhere and the counts do not add up to the
    number of locations, against C4. *)
Lemma sum_misses_location_past_text :
  find_SpaRe (py "ab") [py "ab"; py "x"] = [3]
  /\ exists d,
       freq_SpIn (find_SpaRe (py "ab") [py "ab"; py "x"]) (py "ab") 1 = Some d
       /\ sum_values d <> len (find_SpaRe (py "ab") [py "ab"; py "x"]).
Proof.
  split; [reflexivity|]. exists [(1, 0)]. split; [reflexivity|].
  vm_compute. discriminate.
Qed.

(** C4, amended: for every text and every positive N, the counts returned by
    [freq_SpIn] add up to the number of locations of every list whose
    locations all lie within 0 .. N*chunk_length + N - 1, the range the N
    segments tile; in particular they add up to the number of locations
    returned by [find_SpaRe] on that text when N >= 2 and every searched
    snippet occurs in the text.  No location is counted twice: the spans of
    two different segments share no offset. *)
Theorem freq_SpIn_sum (text : str) (N : Z) :
  0 < N ->
  (forall locs,
     (forall l, In l locs ->
        0 <= l <= N * ceil_div (len text) N + N - 1) ->
     exists d, freq_SpIn locs text N = Some d /\ sum_values d = len locs)
  /\ (2 <= N ->
      forall snippets,
        (forall s, In s (processed snippets) -> occurs text s) ->
        exists d,
          freq_SpIn (find_SpaRe text snippets) text N = Some d
          /\ sum_values d = len (find_SpaRe text snippets))
  /\ (forall k1 k2 s1 e1 s2 e2 loc,
        span_of (segment_spans text N) k1 = Some (s1, e1) ->
        span_of (segment_spans text N) k2 = Some (s2, e2) ->
        1 <= k1 <= N -> 1 <= k2 <= N ->
        s1 <= loc <= e1 -> s2 <= loc <= e2 -> k1 = k2).
Proof.
  intros HN. set (L := ceil_div (len text) N).
  assert (HL : 0 <= L) by (apply ceil_div_nonneg; unfold len; lia).
  assert (Hsum : forall locs,
            (forall l, In l locs -> 0 <= l <= N * L + N - 1) ->
            exists d, freq_SpIn locs text N = Some d
                      /\ sum_values d = len locs).
  { intros locs Hlocs. eexists. split; [apply freq_SpIn_histogram; lia|].
    fold L. unfold range1. rewrite sum_histogram by assumption.
    apply count_in_all. intros l Hl. apply Hlocs in Hl.
    rewrite Z2Nat.id by lia. lia. }
  split; [exact Hsum|]. split.
  - intros HN2 snippets Hocc. apply Hsum. intros l Hl.
    rewrite find_SpaRe_entries in Hl. apply in_map_iff in Hl.
    destruct Hl as ([k v] & <- & Hin).
    rewrite location_and_length_record in Hin.
    apply record_entries in Hin. destruct Hin as [[]|(s & Hs & -> & ->)].
    apply Hocc in Hs. apply find_location_bound in Hs.
    pose proof (ceil_div_covers (len text) N HN). fold L in H.
    assert (0 <= len s) by (unfold len; lia).
    unfold location_of. cbn [fst snd]. nia.
  - intros k1 k2 s1 e1 s2 e2 loc H1 H2 Hk1 Hk2 Hl1 Hl2.
    rewrite segment_spans_span in H1, H2. fold L in H1, H2.
    rewrite span_of_map in H1 by now apply in_range1.
    rewrite span_of_map in H2 by now apply in_range1.
    assert (E1 : span L k1 = (s1, e1)) by congruence.
    assert (E2 : span L k2 = (s2, e2)) by congruence.
    apply (span_disjoint L k1 k2 loc HL).
    + rewrite E1. exact Hl1.
    + rewrite E2. exact Hl2.
Qed.

Lemma freq_SpIn_sum_witness :
  (forall locs,
     (forall l, In l locs ->
        0 <= l <= 2 * ceil_div (len cat_text) 2 + 2 - 1) ->
     exists d, freq_SpIn locs cat_text 2 = Some d /\ sum_values d = len locs)
  /\ (2 <= 2 ->
      forall snippets,
        (forall s, In s (processed snippets) -> occurs cat_text s) ->
        exists d,
          freq_SpIn (find_SpaRe cat_text snippets) cat_text 2 = Some d
          /\ sum_values d = len (find_SpaRe cat_text snippets))
  /\ (forall k1 k2 s1 e1 s2 e2 loc,
        span_of (segment_spans cat_text 2) k1 = Some (s1, e1) ->
        span_of (segment_spans cat_text 2) k2 = Some (s2, e2) ->
        1 <= k1 <= 2 -> 1 <= k2 <= 2 ->
        s1 <= loc <= e1 -> s2 <= loc <= e2 -> k1 = k2).
Proof. apply (freq_SpIn_sum cat_text 2). lia. Defined.

(** * The locator *)

Section ListFacts.

Context {A : Type} (d : A).

Lemma in_firstn_nth (l : list A) (n : nat) (t : A) :
  In t (firstn n l) ->
  exists x, (x < n)%nat /\ (x < length l)%nat /\ nth x l d = t.
Proof.
  revert n. induction l as [|a l IH]; intros n Hin.
  - rewrite firstn_nil in Hin. destruct Hin.
  - destruct n as [|n]; [destruct Hin|]. simpl in Hin.
    destruct Hin as [->|Hin].
    + exists 0%nat. simpl. repeat split; lia.
    + destruct (IH n Hin) as (x & Hx & Hl & Hnth).
      exists (S x). simpl. repeat split; auto; lia.
Qed.

Lemma in_firstn_skipn_nth (l : list A) (a m : nat) (t : A) :
  In t (firstn m (skipn a l)) ->
  exists x, (a <= x < a + m)%nat /\ (x < length l)%nat /\ nth x l d = t.
Proof.
  revert l. induction a as [|a IH]; intros l Hin.
  - simpl in Hin. destruct (in_firstn_nth l m t Hin) as (x & ? & ? & ?).
    exists x. repeat split; auto; lia.
  - destruct l as [|b l]; simpl in Hin.
    + rewrite firstn_nil in Hin. destruct Hin.
    + destruct (IH l Hin) as (x & ? & ? & ?).
      exists (S x). simpl. repeat split; auto; lia.
Qed.

Lemma firstn_split_nth (l : list A) (j n : nat) :
  (j < n <= length l)%nat ->
  firstn n l
  = firstn j l ++ nth j l d :: firstn (n - S j) (skipn (S j) l).
Proof.
  revert j n. induction l as [|a l IH]; intros j n Hjn; simpl in Hjn.
  - lia.
  - destruct n as [|n]; [lia|]. destruct j as [|j].
    + simpl. now rewrite Nat.sub_0_r.
    + simpl. f_equal. apply IH. lia.
Qed.

Lemma firstn_snoc_nth (l : list A) (j : nat) :
  (j < length l)%nat -> firstn (S j) l = firstn j l ++ [nth j l d].
Proof.
  intros Hj. rewrite (firstn_split_nth l j (S j)) by lia.
  now rewrite Nat.sub_diag.
Qed.

Lemma processed_snoc_gen (l : list A) (s : A) :
  firstn (length (l ++ [s]) - 1) (l ++ [s]) = l.
Proof.
  rewrite length_app. simpl.
  replace (length l + 1 - 1)%nat with (length l + 0)%nat by lia.
  rewrite firstn_app_2. simpl. apply app_nil_r.
Qed.

End ListFacts.

(** On the text "a" the searched snippet "zz" does not occur, and the list
    returned is [2]: the location is not derived from an occurrence of any
    searched snippet, against C5. *)
Lemma absent_snippet_location_not_an_occurrence :
  find_SpaRe (py "a") [py "zz"; py "x"] = [2]
  /\ ~ (exists s j,
          In s (processed [py "zz"; py "x"])
          /\ occurs_at (py "a") s j
          /\ 2 = Z.of_nat j + len s + 1).
Proof.
  split; [reflexivity|].
  intros (s & j & [<-|[]] & Hocc & _).
  assert (Habs : ~ occurs (py "a") (py "zz"))
    by (apply find_absent; reflexivity).
  apply Habs. now exists j.
Qed.

(** C5, amended: every indicator location returned by [find_SpaRe] is
    derived from one of the searched snippets: when that snippet occurs in
    the text, the location is the character offset of its first occurrence,
    plus the snippet's length, plus 1; when it does not occur, the location
    is -1 (the sentinel of the substring search) plus the snippet's length
    plus 1, that is the snippet's length. *)
Theorem find_SpaRe_location (text : str) (snippets : list str) (loc : Z) :
  In loc (find_SpaRe text snippets) ->
  exists x,
    (x < length snippets - 1)%nat
    /\ ((exists j,
           occurs_at text (nth x snippets []) j
           /\ (forall j', (j' < j)%nat ->
                          ~ occurs_at text (nth x snippets []) j')
           /\ loc = Z.of_nat j + len (nth x snippets []) + 1)
        \/ (~ occurs text (nth x snippets [])
            /\ find text (nth x snippets []) = -1
            /\ loc = -1 + len (nth x snippets []) + 1
            /\ loc = len (nth x snippets []))).
Proof.
  intros Hin. rewrite find_SpaRe_entries in Hin. apply in_map_iff in Hin.
  destruct Hin as ([k v] & <- & Hin).
  rewrite location_and_length_record in Hin.
  apply record_entries in Hin. destruct Hin as [[]|(s & Hs & -> & ->)].
  destruct (@in_firstn_nth str [] _ _ _ Hs) as (x & Hx & _ & Hnth).
  exists x. rewrite Hnth. split; [assumption|].
  unfold location_of. cbn [fst snd].
  destruct (find_spec text s) as [(j & Hf & Ho & Hm) | (Hf & Hn)].
  - left. exists j. rewrite Hf. auto.
  - right. rewrite Hf. repeat split; auto; lia.
Qed.

Lemma find_SpaRe_location_witness :
  exists x,
    (x < length [cat_snippet; py "x"] - 1)%nat
    /\ ((exists j,
           occurs_at cat_text (nth x [cat_snippet; py "x"] []) j
           /\ (forall j', (j' < j)%nat ->
                 ~ occurs_at cat_text (nth x [cat_snippet; py "x"] []) j')
           /\ 13 = Z.of_nat j + len (nth x [cat_snippet; py "x"] []) + 1)
        \/ (~ occurs cat_text (nth x [cat_snippet; py "x"] [])
            /\ find cat_text (nth x [cat_snippet; py "x"] []) = -1
            /\ 13 = -1 + len (nth x [cat_snippet; py "x"] []) + 1
            /\ 13 = len (nth x [cat_snippet; py "x"] []))).
Proof.
  apply (find_SpaRe_location cat_text [cat_snippet; py "x"] 13).
  left. reflexivity.
Defined.

(** C6: for every snippet list of length n, [find_SpaRe] searches the text
    for the first n-1 snippets only; the last snippet contributes nothing to
    the result, which does not change when the last snippet is replaced, and
    a one-element snippet list yields the empty location list. *)
Theorem last_snippet_ignored (text : str) :
  (forall snippets,
     snippet_indices text snippets
     = map (find text) (firstn (length snippets - 1) snippets))
  /\ (forall snippets,
        (length (find_SpaRe text snippets) <= length snippets - 1)%nat)
  /\ (forall l s s',
        find_SpaRe text (l ++ [s]) = find_SpaRe text (l ++ [s']))
  /\ (forall s, find_SpaRe text [s] = []).
Proof.
  split; [apply snippet_indices_processed|]. split; [|split].
  - intros snippets. rewrite find_SpaRe_entries, length_map.
    rewrite location_and_length_record. unfold processed.
    assert (H : forall (l : list str) (d : dict),
               (length (record text l d) <= length d + length l)%nat).
    { induction l as [|s l IH]; intros d; simpl; [lia|].
      etransitivity; [apply IH|].
      assert (length (update (find text s) (len s) d) <= S (length d))%nat;
        [|lia].
      clear IH. induction d as [|[k v] d IHd]; simpl; [lia|].
      destruct (find text s =? k); simpl; lia. }
    specialize (H (firstn (length snippets - 1) snippets) empty).
    rewrite length_firstn in H. simpl in H. lia.
  - intros l s s'. rewrite !find_SpaRe_entries.
    rewrite !location_and_length_record. unfold processed.
    now rewrite !processed_snoc_gen.
  - reflexivity.
Qed.

(** Two searched snippets are absent from the text "a": the list returned is
    [4], the length of the later one, and the length 2 of the earlier absent
    snippet is not in it, against C7. *)
Lemma absent_snippet_length_overwritten :
  In (py "zz") (processed [py "zz"; py "yyyy"; py "x"])
  /\ ~ occurs (py "a") (py "zz")
  /\ find_SpaRe (py "a") [py "zz"; py "yyyy"; py "x"] = [4]
  /\ ~ In (len (py "zz")) (find_SpaRe (py "a") [py "zz"; py "yyyy"; py "x"]).
Proof.
  split; [left; reflexivity|]. split; [now apply find_absent|].
  split; [reflexivity|]. vm_compute. intros [H|[]]. discriminate H.
Qed.

(** C7, amended: if searched snippets do not occur in the text, [find_SpaRe]
    raises no error and reports nothing: the -1 sentinel of the substring
    search is recorded unfiltered, under the single key -1 of the offset
    mapping, and the returned list silently contains a spurious indicator
    location derived from -1, equal to the length of the last searched
    snippet that does not occur in the text (an absent snippet's own length
    when no later searched snippet is absent). *)
Theorem absent_snippet_pollutes (text : str) (before after : list str)
    (s last : str) :
  ~ occurs text s ->
  (forall t, In t after -> occurs text t) ->
  find text s = -1
  /\ In (-1) (snippet_indices text (before ++ s :: after ++ [last]))
  /\ entries_at (-1)
       (location_and_length text (before ++ s :: after ++ [last]))
     = [(-1, len s)]
  /\ In (len s) (find_SpaRe text (before ++ s :: after ++ [last])).
Proof.
  intros Habs Hafter. apply find_absent in Habs.
  assert (Hproc : processed (before ++ s :: after ++ [last])
                  = before ++ s :: after).
  { unfold processed.
    replace (before ++ s :: after ++ [last])
      with ((before ++ s :: after) ++ [last])
      by (rewrite <- app_assoc; reflexivity).
    apply processed_snoc_gen. }
  assert (Hget : get (-1)
                   (location_and_length text (before ++ s :: after ++ [last]))
                 = Some (len s)).
  { rewrite location_and_length_record, Hproc, <- Habs.
    apply record_get_last. intros t Ht. rewrite Habs.
    apply Hafter in Ht. intros Hneg. apply find_absent in Hneg. tauto. }
  split; [assumption|]. split; [|split].
  - rewrite snippet_indices_processed, Hproc. apply in_map_iff.
    exists s. split; [assumption|]. apply in_or_app. right. now left.
  - rewrite entries_at_unique, Hget; [reflexivity|].
    rewrite location_and_length_record. apply record_NoDup. constructor.
  - rewrite find_SpaRe_entries. apply in_map_iff. exists (-1, len s).
    split; [unfold location_of; cbn [fst snd]; lia|].
    now apply get_some_in.
Qed.

Lemma absent_snippet_pollutes_witness :
  find (py "a") (py "yyyy") = -1
  /\ In (-1) (snippet_indices (py "a")
                ([py "zz"] ++ py "yyyy" :: [py "a"] ++ [py "x"]))
  /\ entries_at (-1)
       (location_and_length (py "a")
          ([py "zz"] ++ py "yyyy" :: [py "a"] ++ [py "x"]))
     = [(-1, len (py "yyyy"))]
  /\ In (len (py "yyyy"))
       (find_SpaRe (py "a") ([py "zz"] ++ py "yyyy" :: [py "a"] ++ [py "x"])).
Proof.
  apply (absent_snippet_pollutes (py "a") [py "zz"] [py "a"]
           (py "yyyy") (py "x")).
  - apply find_absent. reflexivity.
  - intros t [<-|[]]. exists 0%nat. split; [reflexivity | simpl; lia].
Defined.

(** The last index below [n], from [j] on, at which [f] takes the value it
    takes at [j]. *)
Lemma last_index_with (f : nat -> Z) (n j : nat) :
  (j < n)%nat ->
  exists m, (j <= m < n)%nat /\ f m = f j
            /\ forall m', (m < m' < n)%nat -> f m' <> f j.
Proof.
  induction n as [|n IH]; intros Hj; [lia|].
  destruct (Z.eq_dec (f n) (f j)) as [Heq|Hne].
  - exists n. split; [lia|]. split; [assumption|]. intros m' Hm'. lia.
  - assert (Hjn : (j < n)%nat).
    { destruct (Nat.eq_dec j n) as [->|]; [congruence | lia]. }
    destruct (IH Hjn) as (m & Hm & Hfm & Hlast).
    exists m. split; [lia|]. split; [assumption|]. intros m' Hm'.
    destruct (Nat.eq_dec m' n) as [->|]; [assumption|].
    apply Hlast. lia.
Qed.

(** Three searched snippets start at offset 0 of "abab": the list returned is
    [5], computed from the last of them, and the location 4 that the later
    snippet of the pair (first, second) would give is not emitted, against
    C8. *)
Lemma later_of_pair_overwritten :
  find abab_text (nth 0 abab_snippets []) = 0
  /\ find abab_text (nth 1 abab_snippets []) = 0
  /\ find_SpaRe abab_text abab_snippets = [5]
  /\ ~ In (find abab_text (nth 1 abab_snippets [])
           + len (nth 1 abab_snippets []) + 1)
          (find_SpaRe abab_text abab_snippets).
Proof.
  split; [reflexivity|]. split; [reflexivity|]. split; [reflexivity|].
  vm_compute. intros [H|[]]. discriminate H.
Qed.

(** C8, amended: if two searched snippets have the same start offset in the
    text, the later snippet's length overwrites the earlier one's in the
    offset-keyed mapping when it is written (last write wins), the mapping
    keeps a single entry for that offset, and [find_SpaRe] emits one location
    per entry, so only one for that offset: it is computed from the length
    of the last searched snippet that has this offset, which is the later
    snippet of the pair when no searched snippet after it has the same
    offset. *)
Theorem same_offset_last_write_wins (text : str) (snippets : list str)
    (i j : nat) :
  (i < j)%nat -> (j < length snippets - 1)%nat ->
  find text (nth i snippets []) = find text (nth j snippets []) ->
  get (find text (nth j snippets [])) (fst (locate_prefix text snippets (S i)))
  = Some (len (nth i snippets []))
  /\ get (find text (nth j snippets []))
       (fst (locate_prefix text snippets (S j)))
     = Some (len (nth j snippets []))
  /\ find_SpaRe text snippets
     = map location_of (location_and_length text snippets)
  /\ (exists m,
        (j <= m < length snippets - 1)%nat
        /\ find text (nth m snippets []) = find text (nth j snippets [])
        /\ (forall m', (m < m' < length snippets - 1)%nat ->
              find text (nth m' snippets [])
              <> find text (nth j snippets []))
        /\ entries_at (find text (nth j snippets []))
             (location_and_length text snippets)
           = [(find text (nth j snippets []), len (nth m snippets []))])
  /\ ((forall m, (j < m < length snippets - 1)%nat ->
         find text (nth m snippets []) <> find text (nth j snippets [])) ->
      entries_at (find text (nth j snippets []))
        (location_and_length text snippets)
      = [(find text (nth j snippets []), len (nth j snippets []))]).
Proof.
  intros Hij Hj Hsame.
  assert (Hnd : NoDup (keys (location_and_length text snippets))).
  { rewrite location_and_length_record. apply record_NoDup. constructor. }
  assert (Hprefix : forall x, (x < length snippets)%nat ->
            get (find text (nth x snippets []))
              (fst (locate_prefix text snippets (S x)))
            = Some (len (nth x snippets []))).
  { intros x Hx. rewrite locate_prefix_record by lia. cbn [fst].
    rewrite (@firstn_snoc_nth str []) by assumption.
    apply record_get_last. intros t []. }
  assert (Hlast : forall m, (m < length snippets - 1)%nat ->
            (forall m', (m < m' < length snippets - 1)%nat ->
               find text (nth m' snippets [])
               <> find text (nth m snippets [])) ->
            entries_at (find text (nth m snippets []))
              (location_and_length text snippets)
            = [(find text (nth m snippets []), len (nth m snippets []))]).
  { intros m Hm Hlater. rewrite entries_at_unique by assumption.
    rewrite location_and_length_record. unfold processed.
    rewrite (@firstn_split_nth str [] snippets m) by lia.
    rewrite record_get_last; [reflexivity|].
    intros t Ht.
    destruct (@in_firstn_skipn_nth str [] _ _ _ _ Ht) as (m' & Hm' & _ & <-).
    apply Hlater. lia. }
  split; [rewrite <- Hsame; apply Hprefix; lia|].
  split; [apply Hprefix; lia|].
  split; [apply find_SpaRe_entries|]. split.
  - destruct (last_index_with (fun x => find text (nth x snippets []))
                (length snippets - 1) j Hj) as (m & Hm & Hfm & Hlater).
    cbv beta in Hfm, Hlater.
    exists m. split; [assumption|]. split; [assumption|].
    split; [assumption|]. rewrite <- Hfm. apply Hlast; [lia|].
    intros m' Hm'. rewrite Hfm. now apply Hlater.
  - intros Hlater. now apply Hlast.
Qed.

Lemma same_offset_last_write_wins_witness :
  get (find abab_text (nth 1 abab_snippets []))
    (fst (locate_prefix abab_text abab_snippets 1))
  = Some (len (nth 0 abab_snippets []))
  /\ get (find abab_text (nth 1 abab_snippets []))
       (fst (locate_prefix abab_text abab_snippets 2))
     = Some (len (nth 1 abab_snippets []))
  /\ find_SpaRe abab_text abab_snippets
     = map location_of (location_and_length abab_text abab_snippets)
  /\ (exists m,
        (1 <= m < length abab_snippets - 1)%nat
        /\ find abab_text (nth m abab_snippets [])
           = find abab_text (nth 1 abab_snippets [])
        /\ (forall m', (m < m' < length abab_snippets - 1)%nat ->
              find abab_text (nth m' abab_snippets [])
              <> find abab_text (nth 1 abab_snippets []))
        /\ entries_at (find abab_text (nth 1 abab_snippets []))
             (location_and_length abab_text abab_snippets)
           = [(find abab_text (nth 1 abab_snippets []),
               len (nth m abab_snippets []))])
  /\ ((forall m, (1 < m < length abab_snippets - 1)%nat ->
         find abab_text (nth m abab_snippets [])
         <> find abab_text (nth 1 abab_snippets [])) ->
      entries_at (find abab_text (nth 1 abab_snippets []))
        (location_and_length abab_text abab_snippets)
      = [(find abab_text (nth 1 abab_snippets []),
          len (nth 1 abab_snippets []))]).
Proof.
  apply (same_offset_last_write_wins abab_text abab_snippets 0 1).
  - lia.
  - simpl. lia.
  - reflexivity.
Defined.

(** * The normaliser *)

Section CleanFacts.

Variable isalpha : char -> bool.

Lemma str_eqb_single (c : char) : str_eqb [c] apostrophe_literal = false.
Proof. unfold apostrophe_literal. simpl. apply andb_false_r. Qed.

Lemma keep_step_kept (acc : str) (letter : char) :
  keep_step isalpha acc letter
  = if kept isalpha letter then acc ++ [letter] else acc.
Proof.
  unfold keep_step, kept. rewrite str_eqb_single.
  now destruct (isalpha letter || (letter =? SPACE)%N
                || (letter =? HYPHEN)%N).
Qed.

Lemma fold_keep_step (l acc : str) :
  fold_left (keep_step isalpha) l acc = acc ++ filter (kept isalpha) l.
Proof.
  revert acc. induction l as [|c l IH]; intros acc; simpl.
  - now rewrite app_nil_r.
  - rewrite IH, keep_step_kept. destruct (kept isalpha c); auto.
    now rewrite <- app_assoc.
Qed.

Lemma alnum_and_space_filter (contents : str) :
  alnum_and_space isalpha contents
  = filter (kept isalpha) (replace_newline contents).
Proof. unfold alnum_and_space. now rewrite fold_keep_step. Qed.

Lemma nth_after (pre : str) (c d : char) (rest : str) :
  nth (length pre + 1) (pre ++ c :: d :: rest) 0%N = d.
Proof.
  replace (pre ++ c :: d :: rest) with ((pre ++ [c]) ++ d :: rest)
    by (rewrite <- app_assoc; reflexivity).
  replace (length pre + 1)%nat with (length (pre ++ [c]))
    by (rewrite length_app; reflexivity).
  apply nth_middle.
Qed.

(** The index loop of the second pass is [squeeze]. *)
Lemma fold_squeeze_step (suf pre out : str) :
  fold_left (squeeze_step (pre ++ suf))
    (seq (length pre) (length suf - 1)) out
  = out ++ squeeze suf.
Proof.
  revert pre out. induction suf as [|c suf IH]; intros pre out.
  - simpl. now rewrite app_nil_r.
  - destruct suf as [|d rest].
    + simpl. now rewrite app_nil_r.
    + replace (length (c :: d :: rest) - 1)%nat
        with (S (length (d :: rest) - 1)) by (simpl; lia).
      cbn [seq fold_left].
      replace (pre ++ c :: d :: rest) with ((pre ++ [c]) ++ d :: rest)
        by (rewrite <- app_assoc; reflexivity).
      replace (S (length pre)) with (length (pre ++ [c]))
        by (rewrite length_app; simpl; lia).
      rewrite IH. unfold squeeze_step.
      replace ((pre ++ [c]) ++ d :: rest) with (pre ++ c :: d :: rest)
        by (rewrite <- app_assoc; reflexivity).
      rewrite nth_middle, nth_after.
      cbn [squeeze].
      destruct (c =? SPACE)%N, (d =? SPACE)%N; cbn [andb negb];
        rewrite <- ?app_assoc; reflexivity.
Qed.

Lemma clean_text_squeeze (contents : str) :
  clean_text isalpha contents = squeeze (alnum_and_space isalpha contents).
Proof.
  unfold clean_text. rewrite range_pred_len.
  apply (fold_squeeze_step _ [] []).
Qed.

Lemma squeeze_cons2 (c d : char) (rest : str) :
  squeeze (c :: d :: rest)
  = if (c =? SPACE)%N && (d =? SPACE)%N then squeeze (d :: rest)
    else c :: squeeze (d :: rest).
Proof. reflexivity. Qed.




Lemma squeeze_length (s : str) :
  (length (squeeze s) <= length s - 1)%nat.
Proof.
  induction s as [|c s IH]; [simpl; lia|]. destruct s as [|d rest].
  - simpl. lia.
  - rewrite squeeze_cons2. cbn [length] in *.
    destruct ((c =? SPACE)%N && (d =? SPACE)%N); cbn [length]; lia.
Qed.

Lemma squeeze_subseq (s : str) : subseq (squeeze s) (removelast s).
Proof.
  induction s as [|c s IH]; [constructor|]. destruct s as [|d rest].
  - constructor.
  - rewrite squeeze_cons2. change (removelast (c :: d :: rest))
      with (c :: removelast (d :: rest)).
    destruct ((c =? SPACE)%N && (d =? SPACE)%N); now constructor.
Qed.

Lemma squeeze_no_space (s : str) :
  Forall (fun c => c <> SPACE) s -> squeeze s = removelast s.
Proof.
  induction s as [|c s IH]; intros H; [reflexivity|].
  inversion H as [|? ? Hc Hs]; subst. destruct s as [|d rest].
  - reflexivity.
  - rewrite squeeze_cons2. change (removelast (c :: d :: rest))
      with (c :: removelast (d :: rest)).
    apply N.eqb_neq in Hc. rewrite Hc. cbn [andb]. f_equal. now apply IH.
Qed.

End CleanFacts.

Section CleanTheorems.

Variable isalpha : char -> bool.







(** [collapse_spaces] turns a run of spaces into one space, wherever the run
    stands. *)
Lemma collapse_spaces_run (u v : str) (n : nat) :
  collapse_spaces (u ++ repeat SPACE (S n) ++ v)
  = collapse_spaces (u ++ SPACE :: v).
Proof.
  unfold collapse_spaces. generalize false as b.
  induction u as [|a u IH]; intros b.
  - cbn [app repeat collapse_from]. rewrite N.eqb_refl.
    assert (H : collapse_from true (repeat SPACE n ++ v)
                = collapse_from true v).
    { induction n as [|n IHn]; [reflexivity|].
      cbn [repeat app collapse_from]. now rewrite N.eqb_refl. }
    now rewrite H.
  - cbn [app collapse_from].
    destruct (a =? SPACE)%N, b; now rewrite IH.
Qed.



(** C10: for every input whose filtered content is non-empty,
    [clean_text] never emits the final character of the filtered string:
    the second loop runs over the indices 0..len-2 only, so the result is
    made of characters of the filtered string minus its last one, in order,
    and is strictly shorter than the filtered string; an input consisting
    solely of letters is returned minus its last letter. *)
Theorem clean_text_drops_last (contents : str) :
  alnum_and_space isalpha contents <> [] ->
  (length (clean_text isalpha contents)
   < length (alnum_and_space isalpha contents))%nat
  /\ clean_text isalpha contents
     = fold_left (squeeze_step (alnum_and_space isalpha contents))
         (seq 0 (length (alnum_and_space isalpha contents) - 1)) []
  /\ subseq (clean_text isalpha contents)
       (removelast (alnum_and_space isalpha contents))
  /\ (isalpha SPACE = false -> isalpha NEWLINE = false ->
      Forall (fun c => isalpha c = true) contents ->
      clean_text isalpha contents = removelast contents).
Proof.
  intros Hne. split; [|split; [|split]].
  - rewrite clean_text_squeeze.
    pose proof (squeeze_length (alnum_and_space isalpha contents)).
    destruct (alnum_and_space isalpha contents); [congruence|].
    simpl in *. lia.
  - unfold clean_text. now rewrite range_pred_len.
  - rewrite clean_text_squeeze. apply squeeze_subseq.
  - intros Hsp Hnl Hall.
    assert (Hfilter : alnum_and_space isalpha contents = contents).
    { rewrite alnum_and_space_filter.
      assert (Hrep : replace_newline contents = contents).
      { unfold replace_newline. rewrite <- (map_id contents) at 2.
        apply map_ext_in. intros c Hc.
        destruct (c =? NEWLINE)%N eqn:E; [|reflexivity].
        apply N.eqb_eq in E. subst c.
        rewrite Forall_forall in Hall. apply Hall in Hc. congruence. }
      rewrite Hrep. apply forallb_filter_id. apply forallb_forall.
      intros c Hc. rewrite Forall_forall in Hall. unfold kept.
      now rewrite (Hall c Hc). }
    rewrite clean_text_squeeze, Hfilter. apply squeeze_no_space.
    apply Forall_forall. intros c Hc ->.
    rewrite Forall_forall in Hall. apply Hall in Hc. congruence.
Qed.

End CleanTheorems.


Lemma clean_text_drops_last_witness :
  (length (clean_text ascii_isalpha (py "abc"))
   < length (alnum_and_space ascii_isalpha (py "abc")))%nat
  /\ clean_text ascii_isalpha (py "abc")
     = fold_left (squeeze_step (alnum_and_space ascii_isalpha (py "abc")))
         (seq 0 (length (alnum_and_space ascii_isalpha (py "abc")) - 1)) []
  /\ subseq (clean_text ascii_isalpha (py "abc"))
       (removelast (alnum_and_space ascii_isalpha (py "abc")))
  /\ (ascii_isalpha SPACE = false -> ascii_isalpha NEWLINE = false ->
      Forall (fun c => ascii_isalpha c = true) (py "abc") ->
      clean_text ascii_isalpha (py "abc") = removelast (py "abc")).
Proof.
  apply (clean_text_drops_last ascii_isalpha (py "abc")).
  vm_compute. discriminate.
Defined.

(** * Further properties of the locator *)

Section LocatorMore.

Variable text : str.

Lemma in_keys_entry (d : dict) (k : Z) :
  In k (keys d) -> exists v, In (k, v) d.
Proof.
  unfold keys. intros Hin. apply in_map_iff in Hin.
  destruct Hin as ([k' v] & Hk & Hin). simpl in Hk. subst k'. now exists v.
Qed.

Lemma record_keys_iff (l : list str) (o : Z) :
  In o (keys (record text l empty)) <-> In o (map (find text) l).
Proof.
  split.
  - intros Hin. apply in_keys_entry in Hin. destruct Hin as (v & Hin).
    apply record_entries in Hin. destruct Hin as [[]|(s & Hs & -> & _)].
    now apply in_map.
  - intros Hin. apply in_map_iff in Hin. destruct Hin as (s & <- & Hs).
    now apply record_keys_in.
Qed.

(** Snippets at fresh, pairwise different offsets are appended in order. *)
Lemma record_distinct (l : list str) (d : dict) :
  NoDup (map (find text) l) ->
  (forall s, In s l -> ~ In (find text s) (keys d)) ->
  record text l d = d ++ map (fun s => (find text s, len s)) l.
Proof.
  revert d. induction l as [|s l IH]; intros d Hnd Hfresh.
  - simpl. now rewrite app_nil_r.
  - simpl in Hnd. inversion Hnd as [|? ? Hs Hl]; subst.
    cbn [record fold_left map]. fold (record text l).
    rewrite update_fresh by (apply Hfresh; now left).
    fold (record text l (d ++ [(find text s, len s)])).
    rewrite IH; [now rewrite <- app_assoc | assumption |].
    intros t Ht Hin. unfold keys in Hin. rewrite map_app in Hin.
    apply in_app_or in Hin. destruct Hin as [Hin|[Heq|[]]].
    + apply (Hfresh t); [now right | assumption].
    + simpl in Heq. apply Hs. rewrite Heq. now apply in_map.
Qed.

(** One entry for each different offset. *)
Lemma record_length_nodup (l : list str) :
  length (record text l empty)
  = length (nodup Z.eq_dec (map (find text) l)).
Proof.
  rewrite <- (length_map fst). fold (keys (record text l empty)).
  apply Permutation_length. apply NoDup_Permutation.
  - apply record_NoDup. constructor.
  - apply NoDup_nodup.
  - intros o. rewrite nodup_In. apply record_keys_iff.
Qed.

Lemma record_length_le (l : list str) (d : dict) :
  (length (record text l d) <= length d + length l)%nat.
Proof.
  revert d. induction l as [|s l IH]; intros d; simpl; [lia|].
  fold (record text l (update (find text s) (len s) d)).
  etransitivity; [apply IH|].
  assert (length (update (find text s) (len s) d) <= S (length d))%nat;
    [|lia].
  clear IH. induction d as [|[k v] d IHd]; simpl; [lia|].
  destruct (find text s =? k); simpl; lia.
Qed.

(** With two segments or more, the locations of snippets that occur all lie
    within the range the segments tile. *)
Lemma find_SpaRe_in_range (snippets : list str) (N : Z) :
  2 <= N ->
  (forall s, In s (processed snippets) -> occurs text s) ->
  forall l, In l (find_SpaRe text snippets) ->
            0 <= l <= N * ceil_div (len text) N + N - 1.
Proof.
  intros HN Hocc l Hl.
  rewrite find_SpaRe_entries in Hl. apply in_map_iff in Hl.
  destruct Hl as ([k v] & <- & Hin).
  rewrite location_and_length_record in Hin.
  apply record_entries in Hin. destruct Hin as [[]|(s & Hs & -> & ->)].
  apply Hocc in Hs. apply find_location_bound in Hs.
  assert (Hcov : len text <= ceil_div (len text) N * N)
    by (apply ceil_div_covers; lia).
  assert (0 <= len s) by (unfold len; lia).
  unfold location_of. cbn [fst snd]. nia.
Qed.

End LocatorMore.

(** X1: [find_SpaRe] never returns a negative location, the -1 sentinel of
    an absent snippet included; when every searched snippet occurs in the
    text, every location lies between 1 and [len(text) + 1]. *)
Theorem find_SpaRe_bounds (text : str) (snippets : list str) :
  (forall loc, In loc (find_SpaRe text snippets) -> 0 <= loc)
  /\ ((forall s, In s (processed snippets) -> occurs text s) ->
      forall loc, In loc (find_SpaRe text snippets) ->
                  1 <= loc <= len text + 1).
Proof.
  assert (Hshape : forall loc, In loc (find_SpaRe text snippets) ->
            exists s, In s (processed snippets)
                      /\ loc = find text s + len s + 1).
  { intros loc Hin. rewrite find_SpaRe_entries in Hin.
    apply in_map_iff in Hin. destruct Hin as ([k v] & <- & Hin).
    rewrite location_and_length_record in Hin.
    apply record_entries in Hin. destruct Hin as [[]|(s & Hs & -> & ->)].
    exists s. split; [assumption | reflexivity]. }
  split.
  - intros loc Hin. destruct (Hshape loc Hin) as (s & _ & ->).
    assert (0 <= len s) by (unfold len; lia).
    destruct (find_spec text s) as [(j & Hf & _) | (Hf & _)]; lia.
  - intros Hocc loc Hin. destruct (Hshape loc Hin) as (s & Hs & ->).
    apply Hocc in Hs. apply find_location_bound in Hs.
    assert (0 <= len s) by (unfold len; lia). lia.
Qed.

Lemma find_SpaRe_bounds_witness :
  (forall loc, In loc (find_SpaRe cat_text [cat_snippet; py "x"]) ->
               0 <= loc)
  /\ ((forall s, In s (processed [cat_snippet; py "x"]) ->
                 occurs cat_text s) ->
      forall loc, In loc (find_SpaRe cat_text [cat_snippet; py "x"]) ->
                  1 <= loc <= len cat_text + 1).
Proof. apply (find_SpaRe_bounds cat_text [cat_snippet; py "x"]). Defined.

(** X2: when the searched snippets have pairwise different offsets,
    [find_SpaRe] returns one location for each of them, in the order of the
    snippet list. *)
Theorem find_SpaRe_distinct_offsets (text : str) (snippets : list str) :
  NoDup (map (find text) (processed snippets)) ->
  find_SpaRe text snippets
  = map (fun s => find text s + len s + 1) (processed snippets).
Proof.
  intros Hnd. rewrite find_SpaRe_entries, location_and_length_record.
  rewrite record_distinct by (auto; intros s _ []).
  unfold empty. cbn [app]. rewrite map_map. reflexivity.
Qed.

Lemma find_SpaRe_distinct_offsets_witness :
  find_SpaRe cat_text [py "the cat "; py "cat sat "; py "x"]
  = map (fun s => find cat_text s + len s + 1)
      (processed [py "the cat "; py "cat sat "; py "x"]).
Proof.
  apply (find_SpaRe_distinct_offsets cat_text
           [py "the cat "; py "cat sat "; py "x"]).
  vm_compute. repeat constructor; simpl; intuition discriminate.
Defined.

(** X3: the number of locations [find_SpaRe] returns is the number of
    different offsets [text.find] gives for the searched snippets. *)
Theorem find_SpaRe_length (text : str) (snippets : list str) :
  length (find_SpaRe text snippets)
  = length (nodup Z.eq_dec (map (find text) (processed snippets))).
Proof.
  rewrite find_SpaRe_entries, length_map, location_and_length_record.
  apply record_length_nodup.
Qed.

(** * Further properties of the histogram *)

Section HistogramMore.

Lemma count_in_app (s e : Z) (l1 l2 : list Z) :
  count_in s e (l1 ++ l2) = count_in s e l1 + count_in s e l2.
Proof. unfold count_in, len. rewrite filter_app, length_app. lia. Qed.

Lemma count_in_perm (s e : Z) (l1 l2 : list Z) :
  Permutation l1 l2 -> count_in s e l1 = count_in s e l2.
Proof.
  induction 1 as [|x l l' _ IH|x y l|l l' l'' _ IH1 _ IH2].
  - reflexivity.
  - now rewrite !count_in_cons, IH.
  - rewrite !count_in_cons. lia.
  - congruence.
Qed.

Lemma count_in_le_len (s e : Z) (locs : list Z) :
  count_in s e locs <= len locs.
Proof.
  unfold count_in, len. apply inj_le. apply filter_length_le.
Qed.

Lemma span_of_segment (text : str) (N k : Z) :
  1 <= k <= N ->
  span_of (segment_spans text N) k
  = Some (span (ceil_div (len text) N) k).
Proof.
  intros Hk. rewrite segment_spans_span. apply span_of_map.
  now apply in_range1.
Qed.

Lemma range1_nonpos (N : Z) : N <= 0 -> range1 N = [].
Proof.
  intros HN. unfold range1. replace (Z.to_nat N) with 0%nat by lia.
  reflexivity.
Qed.

(** The counts of the chunks 1..N add up to the number of locations within
    the range the chunks tile. *)
Lemma histogram_total (L N : Z) (locs : list Z) :
  0 <= L -> 0 < N ->
  sum_values (histogram L locs (range1 N))
  = count_in 0 (N * L + N - 1) locs.
Proof.
  intros HL HN. unfold range1. rewrite sum_histogram by assumption.
  rewrite Z2Nat.id by lia. f_equal. lia.
Qed.

Lemma histogram_empty (L : Z) (ks : list Z) :
  histogram L [] ks = map (fun k => (k, 0)) ks.
Proof. reflexivity. Qed.

End HistogramMore.

(** X4: the histogram does not depend on the order of the locations:
    [freq_SpIn] returns the same dictionary for two lists that are
    permutations of each other. *)
Theorem freq_SpIn_permutation (locs locs' : list Z) (text : str) (N : Z) :
  Permutation locs locs' ->
  freq_SpIn locs text N = freq_SpIn locs' text N.
Proof.
  intros Hperm. destruct (Z.eq_dec N 0) as [->|HN]; [reflexivity|].
  rewrite !freq_SpIn_histogram by assumption. f_equal.
  unfold histogram. apply map_ext. intros k.
  now rewrite (count_in_perm _ _ _ _ Hperm).
Qed.

Lemma freq_SpIn_permutation_witness :
  freq_SpIn [13; 2; 21] cat_text 2 = freq_SpIn [2; 21; 13] cat_text 2.
Proof.
  apply (freq_SpIn_permutation [13; 2; 21] [2; 21; 13] cat_text 2).
  apply (perm_trans (l' := [2; 13; 21])).
  - apply perm_swap.
  - apply perm_skip. apply perm_swap.
Defined.

(** X5: the histogram of two location lists put together is the sum of
    their histograms, chunk by chunk. *)
Theorem freq_SpIn_app (locs1 locs2 : list Z) (text : str) (N : Z) :
  N <> 0 ->
  exists d1 d2 d,
    freq_SpIn locs1 text N = Some d1
    /\ freq_SpIn locs2 text N = Some d2
    /\ freq_SpIn (locs1 ++ locs2) text N = Some d
    /\ keys d = keys d1 /\ keys d = keys d2
    /\ forall k, In k (keys d) -> 
         exists c1 c2,
           get k d1 = Some c1 /\ get k d2 = Some c2
           /\ get k d = Some (c1 + c2).
Proof.
  intros HN. do 3 eexists.
  split; [apply freq_SpIn_histogram; assumption|].
  split; [apply freq_SpIn_histogram; assumption|].
  split; [apply freq_SpIn_histogram; assumption|].
  rewrite !keys_histogram. split; [reflexivity|]. split; [reflexivity|].
  intros k Hk. do 2 eexists. rewrite !get_histogram by assumption.
  split; [reflexivity|]. split; [reflexivity|].
  now rewrite count_in_app.
Qed.

Lemma freq_SpIn_app_witness :
  exists d1 d2 d,
    freq_SpIn [13] cat_text 2 = Some d1
    /\ freq_SpIn [2; 21] cat_text 2 = Some d2
    /\ freq_SpIn ([13] ++ [2; 21]) cat_text 2 = Some d
    /\ keys d = keys d1 /\ keys d = keys d2
    /\ forall k, In k (keys d) -> 
         exists c1 c2,
           get k d1 = Some c1 /\ get k d2 = Some c2
           /\ get k d = Some (c1 + c2).
Proof. apply (freq_SpIn_app [13] [2; 21] cat_text 2). lia. Defined.

(** X6: for positive N the counts add up to the number of locations within
    0 .. N*chunk_length + N - 1; a location that is negative or beyond that
    bound is dropped silently, so the sum never exceeds the number of
    locations. *)
Theorem freq_SpIn_total (locs : list Z) (text : str) (N : Z) :
  0 < N ->
  exists d,
    freq_SpIn locs text N = Some d
    /\ sum_values d
       = count_in 0 (N * ceil_div (len text) N + N - 1) locs
    /\ sum_values d <= len locs.
Proof.
  intros HN. eexists. split; [apply freq_SpIn_histogram; lia|].
  assert (HL : 0 <= ceil_div (len text) N)
    by (apply ceil_div_nonneg; unfold len; lia).
  rewrite histogram_total by assumption.
  split; [reflexivity | apply count_in_le_len].
Qed.

Lemma freq_SpIn_total_witness :
  exists d,
    freq_SpIn [13; -1; 99] cat_text 2 = Some d
    /\ sum_values d
       = count_in 0 (2 * ceil_div (len cat_text) 2 + 2 - 1) [13; -1; 99]
    /\ sum_values d <= len [13; -1; 99].
Proof. apply (freq_SpIn_total [13; -1; 99] cat_text 2). lia. Defined.

(** X7: for positive N, segment k spans the offsets
    (chunk_length + 1)*(k - 1) .. (chunk_length + 1)*k - 1: the first
    segment starts at 0, and every segment holds chunk_length + 1 offsets,
    one more than the chunk length computed from the text. *)
Theorem segment_span_closed (text : str) (N k : Z) :
  1 <= k <= N ->
  span_of (segment_spans text N) k
  = Some ((ceil_div (len text) N + 1) * (k - 1),
          (ceil_div (len text) N + 1) * k - 1).
Proof.
  intros Hk. rewrite span_of_segment by assumption. rewrite span_closed.
  do 2 f_equal; lia.
Qed.

Lemma segment_span_closed_witness :
  span_of (segment_spans cat_text 2) 2
  = Some ((ceil_div (len cat_text) 2 + 1) * (2 - 1),
          (ceil_div (len cat_text) 2 + 1) * 2 - 1).
Proof. apply (segment_span_closed cat_text 2 2). lia. Defined.

(** X8: for positive N every offset from 0 to [len(text)], the offset one
    past the last character included, lies in the span of exactly one of
    the segments 1..N. *)
Theorem segments_cover_text (text : str) (N i : Z) :
  0 < N -> 0 <= i <= len text ->
  exists k s e,
    1 <= k <= N
    /\ span_of (segment_spans text N) k = Some (s, e)
    /\ s <= i <= e
    /\ forall k' s' e',
         1 <= k' <= N ->
         span_of (segment_spans text N) k' = Some (s', e') ->
         s' <= i <= e' -> k' = k.
Proof.
  intros HN Hi. set (L := ceil_div (len text) N).
  assert (HL : 0 <= L) by (apply ceil_div_nonneg; unfold len; lia).
  assert (Hcov : len text <= L * N) by (apply ceil_div_covers; lia).
  set (q := i / (L + 1)).
  assert (Hq : (L + 1) * q <= i < (L + 1) * q + (L + 1)).
  { unfold q. pose proof (Z.mul_div_le i (L + 1)).
    pose proof (Z.mul_succ_div_gt i (L + 1)). lia. }
  assert (Hq0 : 0 <= q) by (apply Z.div_pos; lia).
  assert (HqN : q < N) by nia.
  assert (Hk : 1 <= q + 1 <= N) by lia.
  exists (q + 1), (fst (span L (q + 1))), (snd (span L (q + 1))).
  split; [assumption|]. split.
  { rewrite span_of_segment by assumption. fold L.
    now rewrite <- surjective_pairing. }
  split.
  { rewrite span_closed. cbn [fst snd]. nia. }
  intros k' s' e' Hk' Hspan Hin.
  rewrite span_of_segment in Hspan by assumption. fold L in Hspan.
  assert (E : span L k' = (s', e')) by congruence.
  apply (span_disjoint L k' (q + 1) i HL).
  - rewrite E. exact Hin.
  - rewrite span_closed. cbn [fst snd]. nia.
Qed.

Lemma segments_cover_text_witness :
  exists k s e,
    1 <= k <= 2
    /\ span_of (segment_spans cat_text 2) k = Some (s, e)
    /\ s <= 22 <= e
    /\ forall k' s' e',
         1 <= k' <= 2 ->
         span_of (segment_spans cat_text 2) k' = Some (s', e') ->
         s' <= 22 <= e' -> k' = k.
Proof.
  apply (segments_cover_text cat_text 2 22); [lia | vm_compute].
  split; discriminate.
Defined.

(** X9: when every searched snippet occurs in the text, no location passes
    [len(text) + 1], so every segment that starts beyond that offset is
    mapped to zero: the segments being one offset wider than the chunk
    length, the last ones can lie wholly past the text. *)
Theorem trailing_segments_empty (text : str) (snippets : list str)
    (N k : Z) :
  (forall s, In s (processed snippets) -> occurs text s) ->
  1 <= k <= N ->
  len text + 1 < (ceil_div (len text) N + 1) * (k - 1) ->
  exists d,
    freq_SpIn (find_SpaRe text snippets) text N = Some d
    /\ get k d = Some 0.
Proof.
  intros Hocc Hk Hpast. eexists.
  split; [apply freq_SpIn_histogram; lia|].
  rewrite get_histogram by now apply in_range1.
  rewrite span_closed. cbn [fst snd]. f_equal.
  apply count_in_none. intros l Hl.
  rewrite find_SpaRe_entries in Hl. apply in_map_iff in Hl.
  destruct Hl as ([o v] & <- & Hin).
  rewrite location_and_length_record in Hin.
  apply record_entries in Hin. destruct Hin as [[]|(s & Hs & -> & ->)].
  apply Hocc in Hs. apply find_location_bound in Hs.
  unfold location_of. cbn [fst snd]. lia.
Qed.

Lemma trailing_segments_empty_witness :
  exists d,
    freq_SpIn (find_SpaRe (py "ab") [py "a"; py "x"]) (py "ab") 5 = Some d
    /\ get 3 d = Some 0.
Proof.
  apply (trailing_segments_empty (py "ab") [py "a"; py "x"] 5 3).
  - intros s [<-|[]]. exists 0%nat. split; [reflexivity | simpl; lia].
  - lia.
  - vm_compute. reflexivity.
Defined.

(** X10: [freq_SpIn] fails, with the division by zero, exactly when the
    number of chunks is 0; with a negative number of chunks it returns the
    empty dictionary, whatever the locations and the text. *)
Theorem freq_SpIn_nonpositive (locs : list Z) (text : str) (N : Z) :
  (freq_SpIn locs text N = None <-> N = 0)
  /\ (N < 0 -> freq_SpIn locs text N = Some []).
Proof.
  split.
  - split.
    + intros H. destruct (Z.eq_dec N 0) as [|HN]; [assumption|].
      rewrite freq_SpIn_histogram in H by assumption. discriminate H.
    + intros ->. reflexivity.
  - intros HN. rewrite freq_SpIn_histogram by lia.
    now rewrite range1_nonpos by lia.
Qed.

Lemma freq_SpIn_nonpositive_witness :
  (freq_SpIn [13] cat_text (-3) = None <-> -3 = 0)
  /\ (-3 < 0 -> freq_SpIn [13] cat_text (-3) = Some []).
Proof. apply (freq_SpIn_nonpositive [13] cat_text (-3)). Defined.

(** X11: with no location at all, [freq_SpIn] returns every chunk 1..N
    mapped to zero. *)
Theorem freq_SpIn_no_location (text : str) (N : Z) :
  N <> 0 ->
  freq_SpIn [] text N = Some (map (fun k => (k, 0)) (range1 N)).
Proof.
  intros HN. rewrite freq_SpIn_histogram by assumption.
  now rewrite histogram_empty.
Qed.

Lemma freq_SpIn_no_location_witness :
  freq_SpIn [] cat_text 2 = Some (map (fun k => (k, 0)) (range1 2)).
Proof. apply (freq_SpIn_no_location cat_text 2). lia. Defined.

(** * Further properties of the normaliser *)

Section CleanMore.

Variable isalpha : char -> bool.

Lemma squeeze_keeps_non_space (s : str) :
  filter (fun c => negb (c =? SPACE)%N) (squeeze s)
  = filter (fun c => negb (c =? SPACE)%N) (removelast s).
Proof.
  induction s as [|c s IH]; [reflexivity|]. destruct s as [|d rest].
  - reflexivity.
  - rewrite squeeze_cons2.
    change (removelast (c :: d :: rest)) with (c :: removelast (d :: rest)).
    destruct (c =? SPACE)%N eqn:Ec, (d =? SPACE)%N eqn:Ed; cbn [andb filter];
      rewrite ?Ec; cbn [negb]; now rewrite IH.
Qed.

(** X12: a character that is neither a letter, a space, a hyphen nor a
    newline leaves no trace in the result of [clean_text]: it is deleted
    and no blank is put in its place, so the text reads as if the character
    had not been there. *)
Theorem clean_text_deletes (u v : str) (c : char) :
  kept isalpha c = false -> c <> NEWLINE ->
  clean_text isalpha (u ++ c :: v) = clean_text isalpha (u ++ v).
Proof.
  intros Hc Hnl. rewrite !clean_text_squeeze, !alnum_and_space_filter.
  f_equal. unfold replace_newline. rewrite !map_app, !filter_app.
  f_equal. cbn [map filter].
  apply N.eqb_neq in Hnl. rewrite Hnl, Hc. reflexivity.
Qed.

(** X13: [clean_text] removes nothing but spaces from the filtered string,
    apart from its last character: the letters and hyphens of the result
    are those of the filtered string without its last character, in the
    same order. *)
Theorem clean_text_keeps_letters (contents : str) :
  filter (fun c => negb (c =? SPACE)%N) (clean_text isalpha contents)
  = filter (fun c => negb (c =? SPACE)%N)
      (removelast (alnum_and_space isalpha contents)).
Proof. rewrite clean_text_squeeze. apply squeeze_keeps_non_space. Qed.

(** X14: when at most one character of the input passes the filter, the
    empty input included, [clean_text] returns the empty string. *)
Theorem clean_text_short (contents : str) :
  (length (alnum_and_space isalpha contents) <= 1)%nat ->
  clean_text isalpha contents = [].
Proof.
  intros Hlen. rewrite clean_text_squeeze.
  pose proof (squeeze_length (alnum_and_space isalpha contents)) as H.
  destruct (squeeze (alnum_and_space isalpha contents)); [reflexivity|].
  simpl in H. lia.
Qed.

End CleanMore.

Lemma clean_text_deletes_witness :
  clean_text ascii_isalpha (py "it" ++ 8217%N :: py "s ok")
  = clean_text ascii_isalpha (py "it" ++ py "s ok").
Proof.
  apply (clean_text_deletes ascii_isalpha (py "it") (py "s ok") 8217%N).
  - reflexivity.
  - discriminate.
Defined.

Lemma clean_text_short_witness : clean_text ascii_isalpha (py "4,a!") = [].
Proof.
  apply (clean_text_short ascii_isalpha (py "4,a!")). vm_compute. lia.
Defined.

(** * The program as a whole *)

Section MainFacts.

Variable isalpha : char -> bool.

Lemma main_histogram_eq (contents : str) (SpaRe_list : list str) :
  main isalpha contents SpaRe_list
  = Some (draw_plot
            (histogram (ceil_div (len (clean_text isalpha contents)) 50)
               (find_SpaRe (clean_text isalpha contents) SpaRe_list)
               (range1 50))).
Proof.
  unfold main. now rewrite freq_SpIn_histogram by discriminate.
Qed.

Lemma values_histogram_sum (L : Z) (locs ks : list Z) :
  fold_right Z.add 0 (values (histogram L locs ks))
  = sum_values (histogram L locs ks).
Proof. reflexivity. Qed.

(** X15: for every text and every snippet list made of strings, [main]
    hands [draw_plot] 50 bars, for the chunks 1..50 in order; their heights
    are non-negative and add up to at most the number of searched snippets,
    [len(snippets) - 1], or 0 for the empty list. *)
Theorem main_bars (contents : str) (SpaRe_list : list str) :
  exists x_chunks y_freq,
    main isalpha contents SpaRe_list = Some (x_chunks, y_freq)
    /\ x_chunks = map Z.of_nat (seq 1 50)
    /\ length y_freq = 50%nat
    /\ Forall (fun v => 0 <= v) y_freq
    /\ fold_right Z.add 0 y_freq <= Z.max 0 (len SpaRe_list - 1).
Proof.
  do 2 eexists. split; [apply main_histogram_eq|].
  set (text := clean_text isalpha contents).
  set (L := ceil_div (len text) 50).
  assert (HL : 0 <= L) by (apply ceil_div_nonneg; unfold len; lia).
  split; [apply keys_histogram|]. split; [|split].
  - unfold values, histogram. now rewrite !length_map.
  - apply Forall_forall. intros v Hv. unfold values, histogram in Hv.
    rewrite map_map in Hv. apply in_map_iff in Hv.
    destruct Hv as (k & <- & _). apply count_in_nonneg.
  - rewrite values_histogram_sum, histogram_total by lia.
    etransitivity; [apply count_in_le_len|].
    assert (Hlen : (length (find_SpaRe text SpaRe_list)
                    <= length SpaRe_list - 1)%nat).
    { rewrite find_SpaRe_entries, length_map, location_and_length_record.
      etransitivity; [apply record_length_le|].
      unfold processed, empty. rewrite length_firstn. simpl. lia. }
    unfold len. lia.
Qed.

(** X16: when every searched snippet occurs in the cleaned text, the
    heights of the 50 bars [main] draws add up to the number of different
    offsets the searched snippets are found at. *)
Theorem main_total (contents : str) (SpaRe_list : list str) :
  (forall s, In s (processed SpaRe_list) ->
             occurs (clean_text isalpha contents) s) ->
  exists x_chunks y_freq,
    main isalpha contents SpaRe_list = Some (x_chunks, y_freq)
    /\ fold_right Z.add 0 y_freq
       = Z.of_nat
           (length
              (nodup Z.eq_dec
                 (map (find (clean_text isalpha contents))
                    (processed SpaRe_list)))).
Proof.
  intros Hocc. do 2 eexists. split; [apply main_histogram_eq|].
  set (text := clean_text isalpha contents) in *.
  assert (HL : 0 <= ceil_div (len text) 50)
    by (apply ceil_div_nonneg; unfold len; lia).
  rewrite values_histogram_sum, histogram_total by lia.
  rewrite count_in_all
    by (apply find_SpaRe_in_range; [lia | assumption]).
  unfold len. f_equal.
  rewrite find_SpaRe_entries, length_map, location_and_length_record.
  apply record_length_nodup.
Qed.

End MainFacts.

Lemma main_total_witness :
  exists x_chunks y_freq,
    main ascii_isalpha (py "the cat sat on the mat.")
      [py "the cat"; py "x"]
    = Some (x_chunks, y_freq)
    /\ fold_right Z.add 0 y_freq
       = Z.of_nat
           (length
              (nodup Z.eq_dec
                 (map (find (clean_text ascii_isalpha
                               (py "the cat sat on the mat.")))
                    (processed [py "the cat"; py "x"])))).
Proof.
  apply (main_total ascii_isalpha (py "the cat sat on the mat.")
           [py "the cat"; py "x"]).
  intros s [<-|[]]. exists 0%nat. split; [reflexivity | vm_compute; lia].
Defined.
